(** * even_more_itertools: a shallow embedding of the lazy operators

    The module [even_more_itertools/itertools.py] defines generator
    functions over single-pass iterators.  A generator is embedded as a
    step function on an explicit state: one call of the step function is
    one [next()] on the generator object, and its result says whether the
    body reached a [yield], returned, or let an exception escape.

    Conventions of the embedding.

    - An iterator over a finite iterable is the list of the items it has
      not produced yet; [next(it)] takes the head.
    - A [for] loop that finds its iterator exhausted ends normally.  A
      [StopIteration] that a call of [next()] or [peek()] raises inside
      a generator's body and that leaves the body does not end the
      generator: the generator raises [RuntimeError: generator raised
      StopIteration] (PEP 479, the rule of Python 3.7 and later).  Line
      146 ([item = next(it)  # raise StopIteration when empty]) and line
      309 ([obj = self.stream.peek()]) are such calls.
    - For an iterator that is not a generator ([Scanner.__next__], the
      [peekable]) the outcome [Stop] is the [StopIteration] that tells
      the caller the iterator is exhausted.
    - Library calls ([heapq], [more_itertools.take], [peekable],
      [collections.deque]) are embedded by their documented behaviour. *)

From Stdlib Require Import String Ascii.
From Stdlib Require Import List ZArith Lia Bool Arith.
From Stdlib Require Import Sorting.Permutation Sorting.Sorted.
Import ListNotations.

Set Implicit Arguments.

(** ** Generators *)

Module Gen.

(** What one [next()] on a generator object gives: a value and the
    suspended generator, normal termination, or an exception. *)
Inductive outcome (E V St : Type) : Type :=
| Yield (v : V) (s : St)
| Stop (s : St)
| Raise (e : E) (s : St).

Arguments Yield {E V St} v s.
Arguments Stop {E V St} s.
Arguments Raise {E V St} e s.

(** How a full traversal ([list(g)], [consume(g)], a [for] loop that is
    never left early) ends. *)
Inductive ending (E : Type) : Type :=
| Exhausted
| Failed (e : E).

Arguments Exhausted {E}.
Arguments Failed {E} e.

(** Control state of a generator object whose body is one loop and that
    keeps nothing in its locals between pulls: it can still run, or it
    has returned. *)
Inductive ctl : Type :=
| Running
| Returned.

Section Drive.
Variables E V St : Type.
Variable next : St -> outcome E V St.

(** [list(g)]: pull until the generator stops or raises.  [None] means
    the fuel ran out before that. *)
Fixpoint collect (fuel : nat) (s : St) : option (list V * ending E * St) :=
  match fuel with
  | O => None
  | S fuel' =>
      match next s with
      | Yield v s' =>
          match collect fuel' s' with
          | Some (vs, e, s'') => Some (v :: vs, e, s'')
          | None => None
          end
      | Stop s' => Some ([], Exhausted, s')
      | Raise e s' => Some ([], Failed e, s')
      end
  end.

(** [take(n, g)] on a generator: at most [n] pulls. *)
Fixpoint pulls (n : nat) (s : St) : list V * option (ending E) * St :=
  match n with
  | O => ([], None, s)
  | S n' =>
      match next s with
      | Yield v s' =>
          let '(vs, e, s'') := pulls n' s' in (v :: vs, e, s'')
      | Stop s' => ([], Some Exhausted, s')
      | Raise e s' => ([], Some (Failed e), s')
      end
  end.
End Drive.

End Gen.

Import Gen.

(** ** Python values of the documented examples *)

Module Py.

(** The values that occur in the doctests: integers and strings. *)
Inductive atom : Type :=
| Int (z : Z)
| Str (s : string).

(** [==] on these values; an integer never equals a string. *)
Definition atom_eqb (a b : atom) : bool :=
  match a, b with
  | Int x, Int y => (x =? y)%Z
  | Str x, Str y => String.eqb x y
  | _, _ => false
  end.

(** [lambda x: isinstance(x, str)]. *)
Definition is_str (a : atom) : bool :=
  match a with
  | Str _ => true
  | Int _ => false
  end.

End Py.

(** ** heapq, by its contract

    [heapq] keeps a list in heap order; [heappop] removes the smallest
    item, [heappushpop(heap, x)] returns [x] unchanged when the heap is
    empty or its smallest item is not smaller than [x], and otherwise
    swaps [x] in and returns the former smallest item.  The embedding
    keeps the heap as a list in increasing order, which gives the same
    sequence of popped items whenever [<] is a total order on the items
    that meet in the heap. *)

Module Heapq.
Section Heap.
Variable T : Type.
Variable ltb : T -> T -> bool.

Fixpoint insert (x : T) (h : list T) : list T :=
  match h with
  | [] => [x]
  | m :: r => if ltb x m then x :: m :: r else m :: insert x r
  end.

Fixpoint heapify (l : list T) : list T :=
  match l with
  | [] => []
  | x :: r => insert x (heapify r)
  end.

Definition heappop (h : list T) : option (T * list T) :=
  match h with
  | [] => None
  | m :: r => Some (m, r)
  end.

(** [if heap and heap[0] < item: item, heap[0] = heap[0], item; ...]
    then [return item]. *)
Definition heappushpop (h : list T) (item : T) : T * list T :=
  match h with
  | m :: r => if ltb m item then (m, insert item r) else (item, h)
  | [] => (item, [])
  end.
End Heap.
End Heapq.

(** ** isort *)

Module Isort.
Import Heapq.

(** The only exception the body of [isort] can let escape on integer
    arguments: [take(bufsize, it)] is [list(islice(it, bufsize))], and
    [islice] refuses a negative stop with a [ValueError]. *)
Inductive exn : Type :=
| ValueError_islice_stop.

(** A decorated item: [(key(item), counter, item)]. *)
Definition dec (A : Type) : Type := (Z * Z * A)%type.

Section WithItems.
Variable A : Type.
(** [<] on the items themselves. *)
Variable ltA : A -> A -> bool.

(** [<] on decorated items is Python's tuple comparison: the first
    component that differs decides. *)
Definition dec_ltb (a b : dec A) : bool :=
  let '(k1, c1, x1) := a in
  let '(k2, c2, x2) := b in
  if negb (k1 =? k2)%Z then (k1 <? k2)%Z
  else if negb (c1 =? c2)%Z then (c1 <? c2)%Z
  else ltA x1 x2.

(** [zip(map(key, i1), count(0, -1), i2)], from counter value [c]. *)
Fixpoint decorate (key : A -> Z) (c : Z) (it : list A) : list (dec A) :=
  match it with
  | [] => []
  | x :: r => (key x, c, x) :: decorate key (c - 1) r
  end.

Definition undecorate (d : dec A) : A := snd d.

(** [take(n, it)] for [n >= 0]: the list of the first [n] items, and
    the iterator left behind. *)
Definition take {X : Type} (n : Z) (it : list X) : list X * list X :=
  (firstn (Z.to_nat n) it, skipn (Z.to_nat n) it).

(** The generator object: not started yet, suspended at the [yield] of
    a [for] loop, suspended at the [yield] of a [while] loop, or
    finished. *)
Inductive gen : Type :=
| Created (iterable : list A) (bufsize : Z) (key : option (A -> Z))
| PlainFor (buf : list A) (it : list A)
| PlainWhile (buf : list A)
| KeyFor (buf : list (dec A)) (it : list (dec A))
| KeyWhile (buf : list (dec A))
| Finished.

(** Calling the generator function runs none of its body. *)
Definition isort (iterable : list A) (bufsize : Z) (key : option (A -> Z))
  : exn + gen :=
  inr (Created iterable bufsize key).

Definition plain_while (buf : list A) : outcome exn A gen :=
  match heappop buf with
  | Some (y, buf') => Yield y (PlainWhile buf')
  | None => Stop Finished
  end.

Definition plain_for (buf it : list A) : outcome exn A gen :=
  match it with
  | item :: it' =>
      let '(y, buf') := heappushpop ltA buf item in
      Yield y (PlainFor buf' it')
  | [] => plain_while buf
  end.

Definition key_while (buf : list (dec A)) : outcome exn A gen :=
  match heappop buf with
  | Some (y, buf') => Yield (undecorate y) (KeyWhile buf')
  | None => Stop Finished
  end.

Definition key_for (buf it : list (dec A)) : outcome exn A gen :=
  match it with
  | item :: it' =>
      let '(y, buf') := heappushpop dec_ltb buf item in
      Yield (undecorate y) (KeyFor buf' it')
  | [] => key_while buf
  end.

(** One [next()] on the generator. *)
Definition next (g : gen) : outcome exn A gen :=
  match g with
  | Created iterable bufsize key =>
      if (bufsize <? 0)%Z then Raise ValueError_islice_stop Finished
      else
        match key with
        | None =>
            let '(buf, it) := take bufsize iterable in
            plain_for (heapify ltA buf) it
        | Some k =>
            let '(buf, it) := take bufsize (decorate k 0 iterable) in
            key_for (heapify dec_ltb buf) it
        end
  | PlainFor buf it => plain_for buf it
  | PlainWhile buf => plain_while buf
  | KeyFor buf it => key_for buf it
  | KeyWhile buf => key_while buf
  | Finished => Stop Finished
  end.

(** [list(isort(iterable, bufsize, key))]: every item is yielded once,
    so [length iterable + 1] pulls reach the end. *)
Definition isort_list (iterable : list A) (bufsize : Z)
           (key : option (A -> Z)) : option (list A * ending exn) :=
  match isort iterable bufsize key with
  | inl e => Some ([], Failed e)
  | inr g =>
      match collect next (S (length iterable)) g with
      | Some (out, e, _) => Some (out, e)
      | None => None
      end
  end.

(** The items popped by the [for] loop and then by the [while] loop,
    from a buffer and the iterator left after [take]. *)
Fixpoint emitted {T : Type} (ltb : T -> T -> bool) (buf it : list T)
  : list T :=
  match it with
  | item :: it' =>
      let '(y, buf') := heappushpop ltb buf item in
      y :: emitted ltb buf' it'
  | [] => buf
  end.

(** The decorated items in the order in which a keyed [isort] pops
    them, before [[2]] undecorates them. *)
Definition popped (iterable : list A) (bufsize : Z) (key : A -> Z)
  : list (dec A) :=
  let '(buf, it) := take bufsize (decorate key 0 iterable) in
  emitted dec_ltb (heapify dec_ltb buf) it.

Definition dkey (d : dec A) : Z := fst (fst d).
Definition counter (d : dec A) : Z := snd (fst d).

(** Position of a decorated item in the input: the counter runs
    [0, -1, -2, ...]. *)
Definition arrival (d : dec A) : Z := (- counter d)%Z.

(** Decorated items ordered by key, then by counter; the items
    themselves are compared only between equal counters, and the
    counters of one stream are all different. *)
Definition dec_le (a b : dec A) : Prop :=
  (dkey a < dkey b)%Z \/ (dkey a = dkey b /\ (counter a <= counter b)%Z).

(** [x] is emitted somewhere before [y]. *)
Definition emitted_before {X : Type} (out : list X) (x y : X) : Prop :=
  exists p q, p < q /\ nth_error out p = Some x /\ nth_error out q = Some y.

End WithItems.

Arguments Finished {A}.

(** Number of adjacent pairs [out[i] <= out[i+1]]. *)
Fixpoint ordered_pairs (out : list Z) : nat :=
  match out with
  | x :: ((y :: _) as r) =>
      (if (x <=? y)%Z then 1 else 0) + ordered_pairs r
  | _ => 0
  end.

(** Number of adjacent pairs [out[i] > out[i+1]]. *)
Fixpoint descents (out : list Z) : nat :=
  match out with
  | x :: ((y :: _) as r) =>
      (if (y <? x)%Z then 1 else 0) + descents r
  | _ => 0
  end.

(** What [list(isort(xs, n))] yields for integers and a buffer size
    that is a natural number. *)
Definition out_at (xs : list Z) (n : nat) : list Z :=
  emitted Z.ltb (heapify Z.ltb (firstn n xs)) (skipn n xs).

(** The docstring's input, [a = [1, 4, 9, 2, 5, 3, 7, 8, 0, 6]], and
    [diff_from_three = lambda n: abs(3 - n)]. *)
Definition doc_a : list Z := [1; 4; 9; 2; 5; 3; 7; 8; 0; 6]%Z.
Definition diff_from_three (n : Z) : Z := Z.abs (3 - n).

End Isort.

(** ** sectionize *)

Module Sectionize.

Section WithItems.
Variable A : Type.
Variable pred : A -> bool.

(** [ValueError('expected a section, but found: {}'.format(item))], which
    carries the item that the message prints, and the [RuntimeError] of
    a [StopIteration] that leaves a generator's body. *)
Inductive exn : Type :=
| ValueError_expected_section (found : A)
| RuntimeError_generator_raised_StopIteration.

(** [deque(maxlen=1).append(x)]: a full deque drops items from its
    left end to make room. *)
Definition deque_append (d : list A) (x : A) : list A :=
  let d' := d ++ [x] in skipn (length d' - 1) d'.

(** The cells that the outer generator and every sub-generator share
    through the closure: [buf], [it], and the outer generator's
    control state. *)
Record world : Type := World {
  buf : list A;
  it : list A;
  outer : ctl
}.

(** [sectionize(pred, iterable)]: the generator object, not started. *)
Definition sectionize (iterable : list A) : world :=
  {| buf := []; it := iterable; outer := Running |}.

(** One [next()] on a generator made by [iter_until_section()]; the
    state is the generator's own control state and the shared cells. *)
Definition iter_until_section (s : ctl * world) : outcome exn A (ctl * world) :=
  let '(c, w) := s in
  match c with
  | Returned => Stop (Returned, w)
  | Running =>
      match it w with
      | [] => Stop (Returned, w)
      | item :: it' =>
          if pred item
          then Stop (Returned,
                     {| buf := deque_append (buf w) item;
                        it := it'; outer := outer w |})
          else Yield item
                     (Running,
                      {| buf := buf w; it := it'; outer := outer w |})
      end
  end.

(** One [next()] on the outer generator.  A yielded Section is the
    marker and a fresh sub-generator.  With [buf] empty and the input
    exhausted, [next(it)] on line 146 raises [StopIteration] inside the
    body. *)
Definition next_section (w : world) : outcome exn (A * ctl) world :=
  match outer w with
  | Returned => Stop w
  | Running =>
      let popped :=
        match buf w with
        | item :: buf' => Some (item, buf', it w)
        | [] =>
            match it w with
            | item :: it' => Some (item, [], it')
            | [] => None
            end
        end in
      match popped with
      | None =>
          Raise RuntimeError_generator_raised_StopIteration
                {| buf := buf w; it := it w; outer := Returned |}
      | Some (item, buf', it') =>
          if pred item
          then Yield (item, Running)
                     {| buf := buf'; it := it'; outer := Running |}
          else Raise (ValueError_expected_section item)
                     {| buf := buf'; it := it'; outer := Returned |}
      end
  end.

(** [[(sec, list(items)) for sec, items in sectionize(pred, data)]]:
    every sub-stream is drained before the next Section is asked
    for.  The result is the pairs made before the loop ended, and how
    it ended. *)
Fixpoint sections_from (fuel : nat) (w : world)
  : option (list (A * list A) * ending exn) :=
  match fuel with
  | O => None
  | S fuel' =>
      match next_section w with
      | Yield (sec, sub) w1 =>
          match collect iter_until_section fuel' (sub, w1) with
          | Some (items, Exhausted, (_, w2)) =>
              match sections_from fuel' w2 with
              | Some (secs, e) => Some ((sec, items) :: secs, e)
              | None => None
              end
          | Some (_, Failed e, _) => Some ([], Failed e)
          | None => None
          end
      | Stop _ => Some ([], Exhausted)
      | Raise e _ => Some ([], Failed e)
      end
  end.

Definition drained_sections (data : list A)
  : option (list (A * list A) * ending exn) :=
  sections_from (S (length data)) (sectionize data).

(** [[sec for sec, _ in sectionize(pred, data)]]: no sub-stream is
    touched. *)
Definition markers_only (data : list A)
  : option (list A * ending exn) :=
  match collect next_section (S (length data)) (sectionize data) with
  | Some (secs, e, _) => Some (map fst secs, e)
  | None => None
  end.

(** A caller that takes one Section, pulls [k] items from its
    sub-stream, drops it and asks for the next Section. *)
Definition abandon_after (k : nat) (data : list A)
  : option (A * list A * outcome exn (A * ctl) world) :=
  match next_section (sectionize data) with
  | Yield (sec, sub) w1 =>
      let '(items, _, (_, w2)) := pulls iter_until_section k (sub, w1) in
      Some (sec, items, next_section w2)
  | _ => None
  end.

(** A flat stream laid out section by section. *)
Fixpoint flatten (secs : list (A * list A)) : list A :=
  match secs with
  | (sec, items) :: r => sec :: items ++ flatten r
  | [] => []
  end.

(** Every marker satisfies [pred] and no item of a sub-stream does. *)
Definition well_formed (secs : list (A * list A)) : bool :=
  forallb (fun s => pred (fst s) && forallb (fun x => negb (pred x)) (snd s))
          secs.

End WithItems.

(** The doctest's [data = ['A', 0, 1, 2, 'B', 3, 4]]. *)
Definition doc_data : list Py.atom :=
  [Py.Str "A"; Py.Int 0; Py.Int 1; Py.Int 2; Py.Str "B"; Py.Int 3; Py.Int 4].

End Sectionize.

(** ** Scanner *)

Module Scanner.

(** The [RuntimeError] of a [StopIteration] that leaves the body of the
    [scan_while] generator. *)
Inductive exn : Type :=
| RuntimeError_generator_raised_StopIteration.

Section WithItems.
Variable A : Type.

(** [more_itertools.peekable]: the cache of peeked items and the
    wrapped iterator. *)
Record peekable : Type := Peekable {
  cache : list A;
  it : list A
}.

(** [peekable.peek()]; [None] is the [StopIteration] of an exhausted
    stream. *)
Definition peek (p : peekable) : option (A * peekable) :=
  match cache p with
  | x :: _ => Some (x, p)
  | [] =>
      match it p with
      | x :: it' => Some (x, {| cache := [x]; it := it' |})
      | [] => None
      end
  end.

(** [next(peekable)]. *)
Definition pnext (p : peekable) : option (A * peekable) :=
  match cache p with
  | x :: c => Some (x, {| cache := c; it := it p |})
  | [] =>
      match it p with
      | x :: it' => Some (x, {| cache := []; it := it' |})
      | [] => None
      end
  end.

(** [Scanner(stream)]: the object's only field is [self.stream]. *)
Definition Scanner (stream : list A) : peekable :=
  {| cache := []; it := stream |}.

(** [Scanner.__next__] and one step of [iter(scanner)]: the item, or
    [Stop] for the [StopIteration] of the exhausted stream, which is
    what ends [list(scanner)]. *)
Definition next (p : peekable) : outcome exn A peekable :=
  match pnext p with
  | Some (x, p') => Yield x p'
  | None => Stop p
  end.

(** One [next()] on the generator made by [scan_while(pred)].  The
    loop ends normally only through [break]; on an exhausted stream
    [self.stream.peek()] raises [StopIteration] inside the body. *)
Definition scan_while_next (pred : A -> bool) (s : ctl * peekable)
  : outcome exn A (ctl * peekable) :=
  let '(c, p) := s in
  match c with
  | Returned => Stop (Returned, p)
  | Running =>
      match peek p with
      | None =>
          Raise RuntimeError_generator_raised_StopIteration (Returned, p)
      | Some (obj, p1) =>
          if pred obj
          then match pnext p1 with
               | Some (x, p2) => Yield x (Running, p2)
               | None =>
                   Raise RuntimeError_generator_raised_StopIteration
                         (Returned, p1)
               end
          else Stop (Returned, p1)
      end
  end.

Definition invert (pred : A -> bool) : A -> bool :=
  fun v => negb (pred v).

(** Items that a peekable can still produce. *)
Definition pending (p : peekable) : list A := cache p ++ it p.

(** [list(scanner.scan_while(pred))] and the Scanner afterwards. *)
Definition scan_while (pred : A -> bool) (p : peekable)
  : option (list A * ending exn * peekable) :=
  match collect (scan_while_next pred) (S (length (pending p)))
                (Running, p) with
  | Some (out, e, (_, p')) => Some (out, e, p')
  | None => None
  end.

Definition scan_until (pred : A -> bool) (p : peekable) :=
  scan_while (invert pred) p.

(** [skip_while]: [consume(self.scan_while(pred))]. *)
Definition skip_while (pred : A -> bool) (p : peekable)
  : option (ending exn * peekable) :=
  match scan_while pred p with
  | Some (_, e, p') => Some (e, p')
  | None => None
  end.

Definition skip_until (pred : A -> bool) (p : peekable) :=
  skip_while (invert pred) p.

(** [list(scanner)]. *)
Definition remainder (p : peekable)
  : option (list A * ending exn * peekable) :=
  collect next (S (length (pending p))) p.

(** How a scan over the pending items [l] ends: by [break] at an item
    that fails [pred], or in the [RuntimeError] when every pending item
    satisfies [pred] and the stream runs out. *)
Definition scan_ending (pred : A -> bool) (l : list A) : ending exn :=
  if forallb pred l
  then Failed RuntimeError_generator_raised_StopIteration
  else Exhausted.

(** The longest prefix whose items all satisfy [pred], and what
    follows it. *)
Fixpoint take_while (pred : A -> bool) (l : list A) : list A :=
  match l with
  | x :: r => if pred x then x :: take_while pred r else []
  | [] => []
  end.

Fixpoint drop_while (pred : A -> bool) (l : list A) : list A :=
  match l with
  | x :: r => if pred x then drop_while pred r else l
  | [] => []
  end.

End WithItems.

End Scanner.

(** ** grouper *)

Module Grouper.

Import Py.

(** A tuple is the list of its components. *)
Definition tuple : Type := list atom.

(** What is accumulated for a tuple: the tuple [tup[1:]], or in bare
    mode the second component itself. *)
Inductive rest : Type :=
| Tup (t : tuple)
| Bare (a : atom).

(** [last_id]: the dummy [object()], or a key that was seen. *)
Inductive ident : Type :=
| Dummy
| Id (a : atom).

Inductive exn : Type :=
| IndexError_tuple_index       (* [tup[0]] of an empty tuple *)
| ValueError_unpack            (* [value, rest = tup] of a non-pair *)
| AttributeError_append.       (* [items.append] while [items] is None *)

(** One item of the inner generator expression. *)
Definition split (bare : bool) (tup : tuple) : exn + (atom * rest) :=
  if bare then
    match tup with
    | [value; r] => inr (value, Bare r)
    | _ => inl ValueError_unpack
    end
  else
    match tup with
    | value :: r => inr (value, Tup r)
    | [] => inl IndexError_tuple_index
    end.

(** [value != last_id]; nothing equals the dummy object. *)
Definition differs (value : atom) (last_id : ident) : bool :=
  match last_id with
  | Dummy => true
  | Id a => negb (atom_eqb value a)
  end.

(** The generator object: at the head of the [for] loop with its locals
    (the state after [last_id = value; items = []; items.append(rest)]
    when it was suspended at the [yield] inside the loop), or past the
    last [yield]. *)
Inductive gen : Type :=
| Loop (bare : bool) (tuples : list tuple) (last_id : ident)
       (items : option (list rest))
| Finished.

Definition grouper (tuples : list tuple) (bare : bool) : gen :=
  Loop bare tuples Dummy None.

Fixpoint run_loop (bare : bool) (tuples : list tuple) (last_id : ident)
         (items : option (list rest))
  : outcome exn (ident * list rest) gen :=
  match tuples with
  | [] =>
      match items with
      | Some l => Yield (last_id, l) Finished
      | None => Stop Finished
      end
  | tup :: tuples' =>
      match split bare tup with
      | inl e => Raise e Finished
      | inr (value, r) =>
          if differs value last_id then
            match items with
            | Some l =>
                Yield (last_id, l) (Loop bare tuples' (Id value) (Some [r]))
            | None => run_loop bare tuples' (Id value) (Some [r])
            end
          else
            match items with
            | Some l => run_loop bare tuples' last_id (Some (l ++ [r]))
            | None => Raise AttributeError_append Finished
            end
      end
  end.

Definition next (g : gen) : outcome exn (ident * list rest) gen :=
  match g with
  | Loop bare tuples last_id items => run_loop bare tuples last_id items
  | Finished => Stop Finished
  end.

(** [list(grouper(tuples, bare))]: every group takes at least one
    tuple. *)
Definition grouper_list (tuples : list tuple) (bare : bool)
  : option (list (ident * list rest) * ending exn) :=
  match collect next (S (length tuples)) (grouper tuples bare) with
  | Some (out, e, _) => Some (out, e)
  | None => None
  end.

(** The tuple that a key and an accumulated remainder came from. *)
Definition rebuild (k : atom) (r : rest) : tuple :=
  match r with
  | Tup t => k :: t
  | Bare a => [k; a]
  end.

(** The tuples of a sequence of groups, in order. *)
Definition ungroup (groups : list (ident * list rest)) : list tuple :=
  flat_map (fun g =>
              match fst g with
              | Id k => map (rebuild k) (snd g)
              | Dummy => []
              end) groups.

(** What [list] makes of the outcome of one pull. *)
Definition continue (fuel : nat) (o : outcome exn (ident * list rest) gen)
  : option (list (ident * list rest) * ending exn * gen) :=
  match o with
  | Yield v s' =>
      match collect next fuel s' with
      | Some (vs, e, s'') => Some (v :: vs, e, s'')
      | None => None
      end
  | Stop s' => Some ([], Exhausted, s')
  | Raise e s' => Some ([], Failed e, s')
  end.

(** The locals of the loop: no group yet, or the key and the items of
    the group that is being accumulated. *)
Definition last_id_of (cur : option (atom * list rest)) : ident :=
  match cur with
  | Some (k, _) => Id k
  | None => Dummy
  end.

Definition items_of (cur : option (atom * list rest))
  : option (list rest) :=
  match cur with
  | Some (_, l) => Some l
  | None => None
  end.

Definition pending_of (cur : option (atom * list rest)) : list tuple :=
  match cur with
  | Some (k, l) => map (rebuild k) l
  | None => []
  end.

Definition open_groups (cur : option (atom * list rest)) : nat :=
  match cur with
  | Some _ => 1
  | None => 0
  end.

(** [==] on what [last_id] can hold. *)
Definition ident_eqb (a b : ident) : bool :=
  match a, b with
  | Id x, Id y => atom_eqb x y
  | Dummy, Dummy => true
  | _, _ => false
  end.

(** No two neighbours of a list of keys are equal. *)
Fixpoint distinct_neighbours (keys : list ident) : bool :=
  match keys with
  | k :: ((k' :: _) as r) => negb (ident_eqb k k') && distinct_neighbours r
  | _ => true
  end.

(** A tuple that the chosen mode can take apart. *)
Definition splits (bare : bool) (tup : tuple) : bool :=
  match split bare tup with
  | inr _ => true
  | inl _ => false
  end.

End Grouper.

(** ** Sequences of Scanner operations *)

Module ScannerOps.
Import Scanner.

Section WithItems.
Variable A : Type.

(** What a caller can do with a Scanner and look at the result of:
    [list(scanner.scan_while(pred))], [list(scanner.scan_until(pred))]
    and [next(scanner)]. *)
Inductive op : Type :=
| ScanWhile (pred : A -> bool)
| ScanUntil (pred : A -> bool)
| Next.

(** How an operation can fail for its caller: [list(...)] of a scan
    passes on the [RuntimeError] of the generator, and [next(scanner)]
    on an exhausted Scanner raises [StopIteration]. *)
Inductive failure : Type :=
| RuntimeError
| StopIteration.

(** The items that one operation takes from the Scanner, the exception
    it ends in if any, and the Scanner afterwards.  When [list(...)]
    fails, the items already taken are not returned to the caller. *)
Definition run_op (o : op) (p : peekable A)
  : option (list A * option failure * peekable A) :=
  match o with
  | ScanWhile pred =>
      match scan_while pred p with
      | Some (out, Exhausted, p') => Some (out, None, p')
      | Some (out, Failed _, p') => Some (out, Some RuntimeError, p')
      | None => None
      end
  | ScanUntil pred =>
      match scan_until pred p with
      | Some (out, Exhausted, p') => Some (out, None, p')
      | Some (out, Failed _, p') => Some (out, Some RuntimeError, p')
      | None => None
      end
  | Next =>
      match next p with
      | Yield x p' => Some ([x], None, p')
      | Stop p' => Some ([], Some StopIteration, p')
      | Raise _ p' => Some ([], Some RuntimeError, p')
      end
  end.

(** A sequence of operations, up to the first one that fails. *)
Fixpoint run_ops (os : list op) (p : peekable A)
  : option (list (list A) * option failure * peekable A) :=
  match os with
  | [] => Some ([], None, p)
  | o :: os' =>
      match run_op o p with
      | Some (out, None, p') =>
          match run_ops os' p' with
          | Some (outs, f, p'') => Some (out :: outs, f, p'')
          | None => None
          end
      | Some (out, Some f, p') => Some ([out], Some f, p')
      | None => None
      end
  end.

End WithItems.

Arguments Next {A}.

End ScannerOps.

(** ** Two sub-streams of sectionize in use at once *)

Module SectionizeAliasing.
Import Sectionize.

Section WithItems.
Variable A : Type.
Variable pred : A -> bool.

(** The state that an outcome leaves behind. *)
Definition after {E V St : Type} (o : outcome E V St) : St :=
  match o with
  | Yield _ s => s
  | Stop s => s
  | Raise _ s => s
  end.

(** A caller that takes two Sections one after the other without
    touching the first sub-stream, drains the second sub-stream, then
    drains the first one, and asks for the next Section:

      [g = sectionize(pred, data)]
      [a, sub_a = next(g); b, sub_b = next(g)]
      [items_b = list(sub_b); items_a = list(sub_a)]
      [next(g)]  *)
Definition stale_substream (data : list A)
  : option (A * A * list A * list A * outcome (exn A) (A * ctl) (world A)) :=
  let fuel := S (length data) in
  match next_section pred (sectionize data) with
  | Yield (a, sub_a) w1 =>
      match next_section pred w1 with
      | Yield (b, sub_b) w2 =>
          match collect (iter_until_section pred) fuel (sub_b, w2) with
          | Some (items_b, Exhausted, (_, w3)) =>
              match collect (iter_until_section pred) fuel (sub_a, w3) with
              | Some (items_a, Exhausted, (_, w4)) =>
                  Some (a, b, items_b, items_a, next_section pred w4)
              | _ => None
              end
          | _ => None
          end
      | _ => None
      end
  | _ => None
  end.

End WithItems.

End SectionizeAliasing.

(** ** Dictionaries

    A [dict] is the list of its items in insertion order; a key occurs
    at most once. *)

Module Dict.

Section WithKeys.
Variables K V : Type.
Variable eqb : K -> K -> bool.

(** [d.get(k)]. *)
Fixpoint get (d : list (K * V)) (k : K) : option V :=
  match d with
  | [] => None
  | (k', v) :: r => if eqb k k' then Some v else get r k
  end.

(** [d[k] = v]: a known key keeps its place, a new key goes last. *)
Fixpoint set (d : list (K * V)) (k : K) (v : V) : list (K * V) :=
  match d with
  | [] => [(k, v)]
  | (k', v') :: r =>
      if eqb k k' then (k', v) :: r else (k', v') :: set r k v
  end.

(** [{k: v for k, v in items}]: the dict built by one assignment per
    item. *)
Definition of_items (items : list (K * V)) : list (K * V) :=
  fold_left (fun acc kv => set acc (fst kv) (snd kv)) items [].

End WithKeys.

End Dict.

(** ** icompact, compact and compact_dict *)

Module Compact.

(** The values of the doctests: [None], booleans, integers, strings,
    lists and dicts with string keys. *)
#[local] Unset Elimination Schemes.
Inductive value : Type :=
| VNone
| VBool (b : bool)
| VInt (z : Z)
| VStr (s : string)
| VList (l : list value)
| VDict (d : list (string * value)).
#[local] Set Elimination Schemes.

(** The truth value that [if item] tests. *)
Definition truthy (v : value) : bool :=
  match v with
  | VNone => false
  | VBool b => b
  | VInt z => negb (z =? 0)%Z
  | VStr s => negb (String.eqb s EmptyString)
  | VList l => match l with [] => false | _ :: _ => true end
  | VDict d => match d with [] => false | _ :: _ => true end
  end.

Inductive exn : Type := .

(** [icompact(iterable)]: the generator expression, as the iterator it
    still has to filter. *)
Definition icompact (iterable : list value) : list value := iterable.

(** One [next()] on it: skip items until one is true. *)
Fixpoint icompact_next (it : list value) : outcome exn value (list value) :=
  match it with
  | [] => Stop []
  | item :: it' =>
      if truthy item then Yield item it' else icompact_next it'
  end.

(** [compact(iterable)]: [list(icompact(iterable))]. *)
Definition compact (iterable : list value)
  : option (list value * ending exn) :=
  match collect icompact_next (S (length iterable)) (icompact iterable) with
  | Some (out, e, _) => Some (out, e)
  | None => None
  end.

(** [compact_dict(data)]: [{k: v for k, v in data.items() if v}]. *)
Definition compact_dict (data : list (string * value))
  : list (string * value) :=
  Dict.of_items String.eqb (filter (fun kv => truthy (snd kv)) data).

End Compact.

(** ** freq *)

Module Freq.
Import Py.

(** [Counter(iterable)]: every element adds one to its count,
    [c[elem] = c.get(elem, 0) + 1]. *)
Definition Counter (iterable : list atom) : list (atom * Z) :=
  fold_left
    (fun c elem =>
       Dict.set atom_eqb c elem
                (match Dict.get atom_eqb c elem with
                 | Some n => n
                 | None => 0
                 end + 1)%Z)
    iterable [].

Definition freq (iterable : list atom) (key : option (atom -> atom))
           (min_freq : option Z) : list (atom * Z) :=
  let iterable :=
    match key with
    | Some k => map k iterable
    | None => iterable
    end in
  let c := Counter iterable in
  match min_freq with
  | Some m =>
      Dict.of_items atom_eqb (filter (fun kc => (m <=? snd kc)%Z) c)
  | None => Dict.of_items atom_eqb c
  end.

(** How often [k] occurs in a list. *)
Fixpoint occurrences (k : atom) (l : list atom) : Z :=
  match l with
  | [] => 0
  | x :: r => ((if atom_eqb k x then 1 else 0) + occurrences k r)%Z
  end.

(** The count that a table holds for [k], [0] for an absent key. *)
Definition count_of (d : list (atom * Z)) (k : atom) : Z :=
  match Dict.get atom_eqb d k with
  | Some n => n
  | None => 0%Z
  end.

(** The sum of the counts of a frequency table. *)
Definition total (d : list (atom * Z)) : Z :=
  fold_right (fun kc acc => (snd kc + acc)%Z) 0%Z d.

(** The keys that [freq] counts. *)
Definition keys_of (iterable : list atom) (key : option (atom -> atom))
  : list atom :=
  match key with
  | Some k => map k iterable
  | None => iterable
  end.

(** Whether a count passes [min_freq]. *)
Definition passes (min_freq : option Z) (n : Z) : bool :=
  match min_freq with
  | Some m => (m <=? n)%Z
  | None => true
  end.

End Freq.

(** ** side_effect *)

Module SideEffect.

(** [chunked(iterable, n)] takes [take(n, it)] until that is empty;
    [take] raises the [ValueError] of [islice] for a negative [n]. *)
Inductive exn : Type :=
| ValueError_islice_stop.

Section WithItems.
Variable A : Type.

(** What [fn] was called with: an item, or a chunk. *)
Inductive call : Type :=
| Item (x : A)
| Chunk (c : list A).

(** The generator object together with the calls of [fn] so far:
    suspended in the loop over the items, suspended in the loop over the
    chunks with the items of the current chunk that are still to be
    yielded, or finished. *)
Inductive gen : Type :=
| PerItem (log : list call) (it : list A)
| PerChunk (log : list call) (chunk_size : Z) (it : list A)
           (chunk : list A)
| Finished (log : list call).

(** [side_effect(fn, iterable, chunk_size)], not started; [fn] has not
    been called. *)
Definition side_effect (iterable : list A) (chunk_size : option Z) : gen :=
  match chunk_size with
  | None => PerItem [] iterable
  | Some n => PerChunk [] n iterable []
  end.

Definition next (g : gen) : outcome exn A gen :=
  match g with
  | PerItem log it =>
      match it with
      | item :: it' => Yield item (PerItem (log ++ [Item item]) it')
      | [] => Stop (Finished log)
      end
  | PerChunk log n it chunk =>
      match chunk with
      | item :: chunk' => Yield item (PerChunk log n it chunk')
      | [] =>
          if (n <? 0)%Z then Raise ValueError_islice_stop (Finished log)
          else
            match firstn (Z.to_nat n) it with
            | [] => Stop (Finished log)
            | item :: chunk' =>
                Yield item
                      (PerChunk (log ++ [Chunk (item :: chunk')]) n
                                (skipn (Z.to_nat n) it) chunk')
            end
      end
  | Finished log => Stop (Finished log)
  end.

(** The calls of [fn] that a generator state records. *)
Definition calls (g : gen) : list call :=
  match g with
  | PerItem log _ => log
  | PerChunk log _ _ _ => log
  | Finished log => log
  end.

(** The items that the generator has not read from [iterable] yet. *)
Definition unread (g : gen) : list A :=
  match g with
  | PerItem _ it => it
  | PerChunk _ _ it _ => it
  | Finished _ => []
  end.

(** The chunks among the calls. *)
Fixpoint chunks_of (log : list call) : list (list A) :=
  match log with
  | [] => []
  | Chunk c :: r => c :: chunks_of r
  | Item _ :: r => chunks_of r
  end.

(** [list(side_effect(fn, iterable, chunk_size))] and the generator
    afterwards. *)
Definition side_effect_list (iterable : list A) (chunk_size : option Z)
  : option (list A * ending exn * gen) :=
  collect next (S (length iterable)) (side_effect iterable chunk_size).

End WithItems.

Arguments Finished {A} log.

End SideEffect.

(** ** The run that grouper is accumulating *)

Module GrouperRuns.
Import Py Grouper.

(** The leading column of a tuple, as the chosen mode reads it. *)
Definition key_of (bare : bool) (tup : tuple) : option atom :=
  match split bare tup with
  | inr (value, _) => Some value
  | inl _ => None
  end.

(** The tuples of the run that is open after [tuples] were read, when
    before them the run [acc] of key [k] was open: a tuple with the key
    of the open run extends it, a tuple with another key starts a new
    run. *)
Fixpoint open_run_from (bare : bool) (k : option atom) (acc : list tuple)
         (tuples : list tuple) : list tuple :=
  match tuples with
  | [] => acc
  | tup :: r =>
      match key_of bare tup, k with
      | Some v, Some k0 =>
          if atom_eqb v k0
          then open_run_from bare k (acc ++ [tup]) r
          else open_run_from bare (Some v) [tup] r
      | Some v, None => open_run_from bare (Some v) [tup] r
      | None, _ => acc
      end
  end.

(** The last run of [tuples]: the tuples of the group that [grouper]
    has not yielded yet when it has read [tuples]. *)
Definition open_run (bare : bool) (tuples : list tuple) : list tuple :=
  open_run_from bare None [] tuples.

End GrouperRuns.


(** * Properties *)

(** ** The heap contract on an ordered buffer *)

Module HeapqFacts.
Import Heapq.

Section Order.
Variable T : Type.
Variable ltb : T -> T -> bool.
Variable le : T -> T -> Prop.
Hypothesis le_trans : forall a b c, le a b -> le b c -> le a c.
Hypothesis ltb_le : forall a b, ltb a b = true -> le a b.
Hypothesis nltb_le : forall a b, ltb a b = false -> le b a.

Lemma le_refl : forall a, le a a.
Proof.
  intro a. destruct (ltb a a) eqn:H; [apply ltb_le | apply nltb_le]; exact H.
Qed.

Lemma insert_perm : forall x h, Permutation (insert ltb x h) (x :: h).
Proof.
  intros x h. induction h as [|m r IH]; simpl.
  - apply Permutation_refl.
  - destruct (ltb x m).
    + apply Permutation_refl.
    + eapply perm_trans; [apply perm_skip, IH | apply perm_swap].
Qed.

Lemma insert_sorted : forall x h,
  StronglySorted le h -> StronglySorted le (insert ltb x h).
Proof.
  intros x h Hs. induction Hs as [|m r Hs IH Hall]; simpl.
  - constructor; constructor.
  - destruct (ltb x m) eqn:Hx.
    + constructor; [constructor; assumption|].
      constructor; [apply ltb_le; exact Hx|].
      eapply Forall_impl; [|exact Hall].
      intros y Hy. eapply le_trans; [apply ltb_le; exact Hx | exact Hy].
    + constructor; [exact IH|].
      eapply Permutation_Forall;
        [apply Permutation_sym, insert_perm|].
      constructor; [apply nltb_le; exact Hx | exact Hall].
Qed.

Lemma heapify_perm : forall l, Permutation (heapify ltb l) l.
Proof.
  induction l as [|x r IH]; simpl.
  - constructor.
  - eapply perm_trans; [apply insert_perm | apply perm_skip, IH].
Qed.

Lemma heapify_sorted : forall l, StronglySorted le (heapify ltb l).
Proof.
  induction l as [|x r IH]; simpl.
  - constructor.
  - apply insert_sorted, IH.
Qed.

Lemma heappushpop_perm : forall h x m h',
  heappushpop ltb h x = (m, h') -> Permutation (m :: h') (x :: h).
Proof.
  intros h x m h' H. destruct h as [|a r]; simpl in H.
  - inversion H; subst. apply Permutation_refl.
  - destruct (ltb a x); inversion H; subst.
    + eapply perm_trans; [apply perm_skip, insert_perm | apply perm_swap].
    + apply Permutation_refl.
Qed.

(** The popped item is a least item of what was in the window. *)
Lemma heappushpop_sorted : forall h x m h',
  StronglySorted le h ->
  heappushpop ltb h x = (m, h') ->
  StronglySorted le h' /\ Forall (le m) h' /\ le m x.
Proof.
  intros h x m h' Hs H. destruct Hs as [|a r Hs Hall]; simpl in H.
  - inversion H; subst. repeat split; try constructor. apply le_refl.
  - destruct (ltb a x) eqn:Hax; inversion H; subst.
    + repeat split.
      * apply insert_sorted, Hs.
      * eapply Permutation_Forall;
          [apply Permutation_sym, insert_perm|].
        constructor; [apply ltb_le; exact Hax | exact Hall].
      * apply ltb_le; exact Hax.
    + assert (Hma : le m a) by (apply nltb_le; exact Hax).
      repeat split.
      * constructor; assumption.
      * constructor; [exact Hma|].
        eapply Forall_impl; [|exact Hall].
        intros y Hy. eapply le_trans; eassumption.
      * apply le_refl.
Qed.

Lemma sorted_nth : forall l p q e d,
  StronglySorted le l -> p < q ->
  nth_error l p = Some e -> nth_error l q = Some d -> le e d.
Proof.
  intros l p q e d Hs. revert p q.
  induction Hs as [|a r Hs IH Hall]; intros p q Hpq Hp Hq.
  - destruct p; discriminate.
  - destruct q as [|q']; [lia|]. simpl in Hq.
    destruct p as [|p']; simpl in Hp.
    + inversion Hp; subst.
      rewrite Forall_forall in Hall. apply Hall.
      eapply nth_error_In; exact Hq.
    + apply (IH p' q'); [lia | assumption | assumption].
Qed.

End Order.

End HeapqFacts.

(** ** isort: the generator and the list it yields *)

Module IsortFacts.
Import Heapq Isort HeapqFacts.

Lemma collect_same_next : forall E V St (next : St -> outcome E V St) fuel s1 s2,
  next s1 = next s2 -> collect next fuel s1 = collect next fuel s2.
Proof.
  intros E V St next fuel s1 s2 H. destruct fuel; simpl; [reflexivity|].
  rewrite H. reflexivity.
Qed.

Lemma heappushpop_length : forall T (ltb : T -> T -> bool) h x m h',
  heappushpop ltb h x = (m, h') -> length h' = length h.
Proof.
  intros T ltb h x m h' H.
  apply heappushpop_perm, Permutation_length in H. simpl in H. lia.
Qed.

Lemma emitted_perm : forall T (ltb : T -> T -> bool) it buf,
  Permutation (emitted ltb buf it) (buf ++ it).
Proof.
  intros T ltb it. induction it as [|x it' IH]; intro buf; simpl.
  - rewrite app_nil_r. apply Permutation_refl.
  - destruct (heappushpop ltb buf x) as [y buf'] eqn:Hpp.
    apply heappushpop_perm in Hpp.
    eapply perm_trans; [apply perm_skip, IH|].
    change (Permutation ((y :: buf') ++ it') (buf ++ x :: it')).
    eapply perm_trans; [apply Permutation_app_tail, Hpp|].
    simpl. apply Permutation_middle.
Qed.

Section Run.
Variable A : Type.
Variable ltA : A -> A -> bool.

Lemma collect_plain_while : forall buf fuel,
  length buf < fuel ->
  collect (next ltA) fuel (PlainWhile buf) = Some (buf, Exhausted, Finished).
Proof.
  induction buf as [|m r IH]; intros fuel Hf.
  - destruct fuel; [simpl in Hf; lia | reflexivity].
  - destruct fuel; [simpl in Hf; lia|]. simpl.
    rewrite IH by (simpl in Hf; lia). reflexivity.
Qed.

Lemma collect_plain_for : forall it buf fuel,
  length buf + length it < fuel ->
  collect (next ltA) fuel (PlainFor buf it)
  = Some (emitted ltA buf it, Exhausted, Finished).
Proof.
  induction it as [|x it' IH]; intros buf fuel Hf.
  - simpl in Hf.
    rewrite (collect_same_next (next ltA) fuel (PlainFor buf [])
                               (PlainWhile buf) eq_refl).
    apply collect_plain_while. simpl. lia.
  - destruct fuel; [simpl in Hf; lia|]. simpl.
    destruct (heappushpop ltA buf x) as [y buf'] eqn:Hpp.
    rewrite IH; [reflexivity|].
    apply heappushpop_length in Hpp. simpl in Hf. lia.
Qed.

Lemma collect_key_while : forall buf fuel,
  length buf < fuel ->
  collect (next ltA) fuel (KeyWhile buf)
  = Some (map (@undecorate A) buf, Exhausted, Finished).
Proof.
  induction buf as [|m r IH]; intros fuel Hf.
  - destruct fuel; [simpl in Hf; lia | reflexivity].
  - destruct fuel; [simpl in Hf; lia|]. simpl.
    rewrite IH by (simpl in Hf; lia). reflexivity.
Qed.

Lemma collect_key_for : forall it buf fuel,
  length buf + length it < fuel ->
  collect (next ltA) fuel (KeyFor buf it)
  = Some (map (@undecorate A) (emitted (dec_ltb ltA) buf it),
          Exhausted, Finished).
Proof.
  induction it as [|x it' IH]; intros buf fuel Hf.
  - simpl in Hf.
    rewrite (collect_same_next (next ltA) fuel (KeyFor buf [])
                               (KeyWhile buf) eq_refl).
    apply collect_key_while. simpl. lia.
  - destruct fuel; [simpl in Hf; lia|]. simpl.
    destruct (heappushpop (dec_ltb ltA) buf x) as [y buf'] eqn:Hpp.
    rewrite IH; [reflexivity|].
    apply heappushpop_length in Hpp. simpl in Hf. lia.
Qed.

Lemma decorate_length : forall (key : A -> Z) xs c,
  length (decorate key c xs) = length xs.
Proof.
  intros key xs. induction xs as [|x r IH]; intro c; simpl;
    [reflexivity | rewrite IH; reflexivity].
Qed.

Lemma decorate_undecorate : forall (key : A -> Z) xs c,
  map (@undecorate A) (decorate key c xs) = xs.
Proof.
  intros key xs. induction xs as [|x r IH]; intro c; simpl;
    [reflexivity | rewrite IH; reflexivity].
Qed.

Lemma decorate_nth : forall (key : A -> Z) xs c i d,
  nth_error (decorate key c xs) i = Some d ->
  counter d = (c - Z.of_nat i)%Z.
Proof.
  intros key xs. induction xs as [|x r IH]; intros c i d H.
  - destruct i; discriminate.
  - destruct i as [|i']; simpl in H.
    + inversion H; subst. unfold counter; simpl. lia.
    + apply IH in H. rewrite H. lia.
Qed.

Lemma list_heapify_length : forall T (ltb : T -> T -> bool) l,
  length (heapify ltb l) = length l.
Proof.
  intros T ltb l. apply Permutation_length, heapify_perm.
Qed.

Lemma take_lengths : forall X (l : list X) n,
  length (firstn n l) + length (skipn n l) = length l.
Proof.
  intros X l n. rewrite <- (firstn_skipn n l) at 3.
  rewrite length_app. reflexivity.
Qed.

(** With no key, [list(isort(xs, b))] is what the two loops pop. *)
Lemma isort_list_plain : forall xs b,
  (0 <= b)%Z ->
  isort_list ltA xs b None
  = Some (emitted ltA (heapify ltA (firstn (Z.to_nat b) xs))
                  (skipn (Z.to_nat b) xs), Exhausted).
Proof.
  intros xs b Hb. unfold isort_list, isort.
  rewrite (collect_same_next (next ltA) (S (length xs))
             (Created xs b None)
             (PlainFor (heapify ltA (firstn (Z.to_nat b) xs))
                       (skipn (Z.to_nat b) xs))).
  - rewrite collect_plain_for; [reflexivity|].
    rewrite list_heapify_length, take_lengths. lia.
  - simpl. destruct (b <? 0)%Z eqn:Hlt; [apply Z.ltb_lt in Hlt; lia|].
    reflexivity.
Qed.

(** With a key, it is the popped decorated items, undecorated. *)
Lemma isort_list_keyed : forall xs b key,
  (0 <= b)%Z ->
  isort_list ltA xs b (Some key)
  = Some (map (@undecorate A) (popped ltA xs b key), Exhausted).
Proof.
  intros xs b key Hb. unfold isort_list, isort, popped, take.
  rewrite (collect_same_next (next ltA) (S (length xs))
             (Created xs b (Some key))
             (KeyFor (heapify (dec_ltb ltA)
                        (firstn (Z.to_nat b) (decorate key 0 xs)))
                     (skipn (Z.to_nat b) (decorate key 0 xs)))).
  - rewrite collect_key_for; [reflexivity|].
    rewrite list_heapify_length, take_lengths, decorate_length. lia.
  - simpl. destruct (b <? 0)%Z eqn:Hlt; [apply Z.ltb_lt in Hlt; lia|].
    reflexivity.
Qed.

Lemma emitted_empty_buffer : forall T (ltb : T -> T -> bool) it,
  emitted ltb [] it = it.
Proof.
  intros T ltb it. induction it as [|x r IH]; simpl;
    [reflexivity | rewrite IH; reflexivity].
Qed.

End Run.

(** *** Claims on ties under a key function *)

Section Window.
Variable T : Type.
Variable ltb : T -> T -> bool.
Variable le : T -> T -> Prop.
Hypothesis le_trans : forall a b c, le a b -> le b c -> le a c.
Hypothesis ltb_le : forall a b, ltb a b = true -> le a b.
Hypothesis nltb_le : forall a b, ltb a b = false -> le b a.

Lemma emitted_origin : forall it buf q d,
  nth_error (emitted ltb buf it) q = Some d ->
  In d buf \/ exists m, nth_error it m = Some d.
Proof.
  intros it buf q d H. apply nth_error_In in H.
  eapply Permutation_in in H; [|apply emitted_perm].
  apply in_app_or in H. destruct H as [H|H]; [left; exact H|].
  right. apply In_nth_error in H. exact H.
Qed.

(** An item that is popped before another one is not above it, unless
    the other one had not been read yet: the [p]-th pop happens on
    reading [it[p]]. *)
Lemma emitted_order : forall it buf p q e d,
  StronglySorted le buf -> p < q ->
  nth_error (emitted ltb buf it) p = Some e ->
  nth_error (emitted ltb buf it) q = Some d ->
  le e d \/ exists m, p < m /\ nth_error it m = Some d.
Proof.
  induction it as [|x it' IH]; intros buf p q e d Hs Hpq Hp Hq.
  - left. simpl in Hp, Hq.
    exact (@sorted_nth T le buf p q e d Hs Hpq Hp Hq).
  - simpl in Hp, Hq.
    destruct (heappushpop ltb buf x) as [y buf'] eqn:Hpp.
    destruct (@heappushpop_sorted T ltb le le_trans ltb_le nltb_le
                buf x y buf' Hs Hpp) as (Hs' & Hall & _).
    destruct q as [|q']; [lia|]. simpl in Hq.
    destruct p as [|p']; simpl in Hp.
    + inversion Hp; subst y.
      destruct (emitted_origin _ _ _ Hq) as [Hin | [m Hm]].
      * left. rewrite Forall_forall in Hall. apply Hall, Hin.
      * right. exists (S m). split; [lia | exact Hm].
    + destruct (IH buf' p' q' e d Hs') as [Hle | [m [Hlt Hm]]];
        try assumption; [lia | left; exact Hle |].
      right. exists (S m). split; [lia | exact Hm].
Qed.
End Window.

Section Ties.
Variable A : Type.
Variable ltA : A -> A -> bool.

Lemma dec_le_trans : forall a b c : dec A,
  dec_le a b -> dec_le b c -> dec_le a c.
Proof. unfold dec_le. intros a b c H1 H2. lia. Qed.

Lemma dec_ltb_le : forall a b, dec_ltb ltA a b = true -> dec_le a b.
Proof.
  intros [[k1 c1] x1] [[k2 c2] x2]. unfold dec_le, dkey, counter; simpl.
  destruct (k1 =? k2)%Z eqn:Hk; simpl.
  - apply Z.eqb_eq in Hk.
    destruct (c1 =? c2)%Z eqn:Hc; simpl.
    + apply Z.eqb_eq in Hc. intros _. lia.
    + intro H. apply Z.ltb_lt in H. lia.
  - intro H. apply Z.ltb_lt in H. lia.
Qed.

Lemma dec_nltb_le : forall a b, dec_ltb ltA a b = false -> dec_le b a.
Proof.
  intros [[k1 c1] x1] [[k2 c2] x2]. unfold dec_le, dkey, counter; simpl.
  destruct (k1 =? k2)%Z eqn:Hk; simpl.
  - apply Z.eqb_eq in Hk.
    destruct (c1 =? c2)%Z eqn:Hc; simpl.
    + apply Z.eqb_eq in Hc. intros _. lia.
    + apply Z.eqb_neq in Hc. intro H. apply Z.ltb_ge in H. lia.
  - apply Z.eqb_neq in Hk. intro H. apply Z.ltb_ge in H. lia.
Qed.

Lemma popped_perm : forall xs b (key : A -> Z),
  Permutation (popped ltA xs b key) (decorate key 0 xs).
Proof.
  intros xs b key. unfold popped, take.
  eapply perm_trans; [apply emitted_perm|].
  rewrite <- (firstn_skipn (Z.to_nat b) (decorate key 0 xs)) at 3.
  apply Permutation_app_tail, heapify_perm.
Qed.

Lemma popped_order : forall xs b (key : A -> Z) p q e d,
  (0 <= b)%Z -> p < q ->
  nth_error (popped ltA xs b key) p = Some e ->
  nth_error (popped ltA xs b key) q = Some d ->
  dkey e = dkey d ->
  (arrival e < arrival d)%Z ->
  (b + Z.of_nat p < arrival d)%Z.
Proof.
  intros xs b key p q e d Hb Hpq Hp Hq Hk Harr.
  unfold popped, take in Hp, Hq.
  destruct (@emitted_order (dec A) (dec_ltb ltA) (@dec_le A)
              dec_le_trans dec_ltb_le dec_nltb_le
              (skipn (Z.to_nat b) (decorate key 0 xs))
              (heapify (dec_ltb ltA)
                 (firstn (Z.to_nat b) (decorate key 0 xs)))
              p q e d
              (@heapify_sorted (dec A) (dec_ltb ltA) (@dec_le A)
                 dec_le_trans dec_ltb_le dec_nltb_le
                 (firstn (Z.to_nat b) (decorate key 0 xs)))
              Hpq Hp Hq) as [Hle | [m [Hlt Hm]]].
  - unfold dec_le in Hle. unfold arrival in Harr. lia.
  - rewrite nth_error_skipn in Hm. apply decorate_nth in Hm.
    unfold arrival. rewrite Hm. lia.
Qed.
End Ties.


(** C1, as stated, fails on the docstring's own example:
    [list(isort(a, bufsize=5, key=diff_from_three))] is
    [[3, 2, 4, 5, 1, 6, 0, 7, 8, 9]].  The items [4] (position 1 of [a])
    and [2] (position 3) have the same key, and [2], which arrived
    later, is emitted first. *)
Lemma isort_doc_ties_later_item_first :
  isort_list Z.ltb doc_a 5 (Some diff_from_three)
  = Some ([3; 2; 4; 5; 1; 6; 0; 7; 8; 9]%Z, Exhausted) /\
  nth_error doc_a 1 = Some 4%Z /\
  nth_error doc_a 3 = Some 2%Z /\
  diff_from_three 4 = diff_from_three 2 /\
  emitted_before [3; 2; 4; 5; 1; 6; 0; 7; 8; 9]%Z 2%Z 4%Z /\
  ~ emitted_before [3; 2; 4; 5; 1; 6; 0; 7; 8; 9]%Z 4%Z 2%Z.
Proof.
  repeat split; try reflexivity.
  - exists 1, 2. repeat split. lia.
  - intros (p & q & Hpq & Hp & Hq).
    repeat (destruct p as [|p]; simpl in Hp; try discriminate Hp);
      repeat (destruct q as [|q]; simpl in Hq; try discriminate Hq);
      lia.
Qed.

(** C1, amended: under a key function the decorated items are popped
    by key and then by the decreasing counter, so among items of equal
    key the later arrival wins.  An item is emitted before a later
    arrival of the same key only if that later item had not been read
    yet when it was emitted (the [p]-th emission happens on reading the
    input at position [bufsize + p]); whenever both are in the window,
    the later arrival is emitted first. *)
Theorem isort_key_ties_latest_first :
  forall (A : Type) (ltA : A -> A -> bool) (xs : list A) (b : Z)
         (key : A -> Z),
    (0 <= b)%Z ->
    isort_list ltA xs b (Some key)
    = Some (map (@undecorate A) (popped ltA xs b key), Exhausted) /\
    Permutation (popped ltA xs b key) (decorate key 0 xs) /\
    forall p q e d,
      p < q ->
      nth_error (popped ltA xs b key) p = Some e ->
      nth_error (popped ltA xs b key) q = Some d ->
      dkey e = dkey d ->
      (arrival e < arrival d)%Z ->
      (b + Z.of_nat p < arrival d)%Z.
Proof.
  intros A ltA xs b key Hb. split; [|split].
  - apply isort_list_keyed, Hb.
  - apply popped_perm.
  - intros p q e d. apply popped_order, Hb.
Qed.

Lemma isort_key_ties_latest_first_witness :
  isort_list Z.ltb doc_a 5 (Some diff_from_three)
  = Some (map (@undecorate Z) (popped Z.ltb doc_a 5 diff_from_three),
          Exhausted) /\
  Permutation (popped Z.ltb doc_a 5 diff_from_three)
              (decorate diff_from_three 0 doc_a) /\
  forall p q e d,
    p < q ->
    nth_error (popped Z.ltb doc_a 5 diff_from_three) p = Some e ->
    nth_error (popped Z.ltb doc_a 5 diff_from_three) q = Some d ->
    dkey e = dkey d ->
    (arrival e < arrival d)%Z ->
    (5 + Z.of_nat p < arrival d)%Z.
Proof.
  apply (@isort_key_ties_latest_first Z Z.ltb doc_a 5%Z diff_from_three).
  lia.
Defined.


(** *** Claims on the quality of the output *)

Lemma Z_ltb_le : forall a b, (a <? b)%Z = true -> (a <= b)%Z.
Proof. intros a b H. apply Z.ltb_lt in H. lia. Qed.

Lemma Z_nltb_le : forall a b, (a <? b)%Z = false -> (b <= a)%Z.
Proof. intros a b H. apply Z.ltb_ge in H. exact H. Qed.

Lemma descents_cons : forall x y r,
  descents (x :: y :: r)
  = (if (y <? x)%Z then 1 else 0) + descents (y :: r).
Proof. reflexivity. Qed.

Lemma descents_sorted : forall l, StronglySorted Z.le l -> descents l = 0.
Proof.
  intros l Hs. induction Hs as [|a r Hs IH Hall]; [reflexivity|].
  destruct r as [|y r']; [reflexivity|].
  rewrite descents_cons, IH.
  inversion Hall; subst.
  destruct (y <? a)%Z eqn:H; [apply Z.ltb_lt in H; lia | reflexivity].
Qed.

Lemma descents_cons_le : forall x l, descents l <= descents (x :: l).
Proof.
  intros x l. destruct l as [|y r]; [simpl; lia|].
  rewrite descents_cons. lia.
Qed.

Lemma ordered_plus_descents : forall l,
  ordered_pairs l + descents l = pred (length l).
Proof.
  induction l as [|x r IH]; [reflexivity|].
  destruct r as [|y r']; [reflexivity|].
  change (ordered_pairs (x :: y :: r'))
    with ((if (x <=? y)%Z then 1 else 0) + ordered_pairs (y :: r')).
  rewrite descents_cons.
  simpl length in *. simpl pred in *.
  destruct (x <=? y)%Z eqn:H1; destruct (y <? x)%Z eqn:H2;
    try apply Z.leb_le in H1; try apply Z.leb_gt in H1;
    try apply Z.ltb_lt in H2; try apply Z.ltb_ge in H2; lia.
Qed.

(** What [heappushpop] does to a buffer of integers in increasing
    order. *)
Lemma pushpop_least : forall B x m B1,
  StronglySorted Z.le B ->
  heappushpop Z.ltb B x = (m, B1) ->
  StronglySorted Z.le B1 /\ Forall (Z.le m) B1 /\
  Forall (Z.le m) (x :: B) /\ Permutation (m :: B1) (x :: B) /\
  In m (x :: B).
Proof.
  intros B x m B1 Hs Hpp.
  destruct (@heappushpop_sorted Z Z.ltb Z.le Z.le_trans Z_ltb_le Z_nltb_le
              B x m B1 Hs Hpp) as (Hs1 & Hall & Hmx).
  pose proof (heappushpop_perm _ _ _ Hpp) as Hperm.
  repeat split; try assumption.
  - eapply Permutation_Forall; [exact Hperm|].
    constructor; [lia | exact Hall].
  - eapply Permutation_in; [exact Hperm | left; reflexivity].
Qed.

(** Two runs over the same remaining input, the second with one more
    item [e] in its buffer and a last emitted item that is not above
    the first run's: the second run never descends more often. *)
Lemma window_simulation : forall it B B' L L' e,
  StronglySorted Z.le B -> StronglySorted Z.le B' ->
  Permutation B' (e :: B) ->
  (L' <= L)%Z ->
  Forall (Z.le L) B -> Forall (Z.le L') B' ->
  descents (L' :: emitted Z.ltb B' it) <= descents (L :: emitted Z.ltb B it).
Proof.
  induction it as [|x it' IH]; intros B B' L L' e Hs Hs' Hperm HL HB HB'.
  - cbn [emitted]. rewrite (descents_sorted (l := L' :: B')); [lia|].
    constructor; assumption.
  - cbn [emitted].
    destruct (heappushpop Z.ltb B x) as [m B1] eqn:Hpp.
    destruct (heappushpop Z.ltb B' x) as [m' B1'] eqn:Hpp'.
    destruct (pushpop_least x Hs Hpp) as (Hs1 & Hall1 & Hmin & Hp1 & Hin).
    destruct (pushpop_least x Hs' Hpp')
      as (Hs1' & Hall1' & Hmin' & Hp1' & Hin').
    rewrite !descents_cons.
    assert (Hmm : (m' <= m)%Z).
    { rewrite Forall_forall in Hmin'. apply Hmin'.
      destruct Hin as [Hx | HinB]; [left; exact Hx|].
      right. eapply Permutation_in;
        [apply Permutation_sym, Hperm | right; exact HinB]. }
    assert (Hx : (m <= x)%Z) by (inversion Hmin; assumption).
    assert (Hflag : (if (m' <? L')%Z then 1 else 0)
                    <= (if (m <? L)%Z then 1 else 0)).
    { destruct (m' <? L')%Z eqn:Hd'; [|lia].
      apply Z.ltb_lt in Hd'.
      assert (m' = x).
      { destruct Hin' as [Hx' | HinB']; [symmetry; exact Hx'|].
        rewrite Forall_forall in HB'. apply HB' in HinB'. lia. }
      destruct (m <? L)%Z eqn:Hd; [lia|].
      apply Z.ltb_ge in Hd. lia. }
    assert (Hnext : exists e1, Permutation B1' (e1 :: B1)).
    { destruct (Z.eq_dec m' m) as [Heq | Hne].
      - exists e. subst m'.
        apply Permutation_cons_inv with (a := m).
        eapply perm_trans; [exact Hp1'|].
        eapply perm_trans; [apply perm_skip, Hperm|].
        eapply perm_trans; [apply perm_swap|].
        eapply perm_trans;
          [apply perm_skip, Permutation_sym, Hp1 | apply perm_swap].
      - exists m.
        assert (He : m' = e).
        { destruct Hin' as [Hx' | HinB']; [lia|].
          eapply Permutation_in in HinB'; [|exact Hperm].
          destruct HinB' as [He | HinB]; [symmetry; exact He|].
          rewrite Forall_forall in Hmin.
          assert (m <= m')%Z by (apply Hmin; right; exact HinB). lia. }
        subst e.
        apply Permutation_cons_inv with (a := m').
        eapply perm_trans; [exact Hp1'|].
        eapply perm_trans; [apply perm_skip, Hperm|].
        eapply perm_trans; [apply perm_swap|].
        apply perm_skip, Permutation_sym, Hp1. }
    destruct Hnext as [e1 He1].
    specialize (IH B1 B1' m m' e1 Hs1 Hs1' He1 Hmm Hall1 Hall1').
    lia.
Qed.

Lemma out_at_length : forall xs n, length (out_at xs n) = length xs.
Proof.
  intros xs n. unfold out_at.
  rewrite (Permutation_length (emitted_perm Z.ltb _ _)).
  rewrite length_app, list_heapify_length. apply take_lengths.
Qed.

Lemma take_one_more : forall (xs : list Z) n,
  n < length xs ->
  exists x, firstn (S n) xs = firstn n xs ++ [x] /\
            skipn n xs = x :: skipn (S n) xs.
Proof.
  induction xs as [|a r IH]; intros n Hn; [simpl in Hn; lia|].
  destruct n as [|n'].
  - exists a. split; reflexivity.
  - destruct (IH n') as (x & Hf & Hsk); [simpl in Hn; lia|].
    exists x. split.
    + change (a :: firstn (S n') r = a :: (firstn n' r ++ [x])).
      rewrite Hf. reflexivity.
    + exact Hsk.
Qed.

Lemma out_at_step : forall xs n,
  descents (out_at xs (S n)) <= descents (out_at xs n).
Proof.
  intros xs n. destruct (Nat.lt_ge_cases n (length xs)) as [Hlt | Hge].
  - destruct (take_one_more xs Hlt) as (x & Hf & Hsk).
    unfold out_at. rewrite Hf, Hsk. cbn [emitted].
    set (pre := firstn n xs). set (rest := skipn (S n) xs).
    destruct (heappushpop Z.ltb (heapify Z.ltb pre) x) as [m B1] eqn:Hpp.
    assert (Hsp : StronglySorted Z.le (heapify Z.ltb pre))
      by (apply (@heapify_sorted Z Z.ltb Z.le Z.le_trans Z_ltb_le Z_nltb_le)).
    destruct (pushpop_least x Hsp Hpp) as (Hs1 & Hall1 & Hmin & Hp1 & Hin).
    assert (Hperm : Permutation (heapify Z.ltb (pre ++ [x])) (m :: B1)).
    { eapply perm_trans; [apply heapify_perm|].
      eapply perm_trans; [apply Permutation_sym, Permutation_cons_append|].
      eapply perm_trans; [|apply Permutation_sym, Hp1].
      apply perm_skip, Permutation_sym, heapify_perm. }
    eapply Nat.le_trans; [apply (descents_cons_le m)|].
    apply window_simulation with (e := m).
    + exact Hs1.
    + apply (@heapify_sorted Z Z.ltb Z.le Z.le_trans Z_ltb_le Z_nltb_le).
    + exact Hperm.
    + lia.
    + exact Hall1.
    + eapply Permutation_Forall; [apply Permutation_sym, Hperm|].
      constructor; [lia | exact Hall1].
  - unfold out_at.
    rewrite !firstn_all2 by lia. rewrite !skipn_all2 by lia. lia.
Qed.

Lemma out_at_monotone : forall xs n k,
  descents (out_at xs (n + k)) <= descents (out_at xs n).
Proof.
  intros xs n k. induction k as [|k IH].
  - rewrite Nat.add_0_r. lia.
  - rewrite Nat.add_succ_r.
    eapply Nat.le_trans; [apply out_at_step | exact IH].
Qed.

(** C5: for buffer sizes [0 < b1 < b2], both runs end normally and the
    output for [b2] has at least as many adjacent pairs
    [out[i] <= out[i+1]] as the output for [b1]. *)
Theorem isort_sortedness_monotone :
  forall (xs : list Z) (b1 b2 : Z),
    (0 < b1)%Z -> (b1 < b2)%Z ->
    exists out1 out2,
      isort_list Z.ltb xs b1 None = Some (out1, Exhausted) /\
      isort_list Z.ltb xs b2 None = Some (out2, Exhausted) /\
      ordered_pairs out1 <= ordered_pairs out2.
Proof.
  intros xs b1 b2 H1 H2.
  exists (out_at xs (Z.to_nat b1)), (out_at xs (Z.to_nat b2)).
  split; [apply isort_list_plain; lia|].
  split; [apply isort_list_plain; lia|].
  pose proof (ordered_plus_descents (out_at xs (Z.to_nat b1))) as E1.
  pose proof (ordered_plus_descents (out_at xs (Z.to_nat b2))) as E2.
  rewrite out_at_length in E1, E2.
  pose proof (out_at_monotone xs (Z.to_nat b1)
                              (Z.to_nat b2 - Z.to_nat b1)) as Hm.
  replace (Z.to_nat b1 + (Z.to_nat b2 - Z.to_nat b1))
    with (Z.to_nat b2) in Hm by lia.
  lia.
Qed.

Lemma isort_sortedness_monotone_witness :
  exists out1 out2,
    isort_list Z.ltb doc_a 3 None = Some (out1, Exhausted) /\
    isort_list Z.ltb doc_a 8 None = Some (out2, Exhausted) /\
    ordered_pairs out1 <= ordered_pairs out2.
Proof.
  apply (isort_sortedness_monotone doc_a (b1 := 3) (b2 := 8)); lia.
Defined.


(** *** Claims on the buffer size *)

Lemma isort_list_zero :
  forall (A : Type) (ltA : A -> A -> bool) (xs : list A)
         (key : option (A -> Z)),
    isort_list ltA xs 0 key = Some (xs, Exhausted).
Proof.
  intros A ltA xs key. destruct key as [k|].
  - rewrite isort_list_keyed by lia.
    unfold popped, take. simpl.
    rewrite emitted_empty_buffer, decorate_undecorate. reflexivity.
  - rewrite isort_list_plain by lia. simpl.
    rewrite emitted_empty_buffer. reflexivity.
Qed.

(** C10: with [bufsize = 0] the call raises nothing, and the generator
    yields exactly the input items in their arrival order and then ends
    normally, with or without a key function. *)
Theorem isort_bufsize_zero_passes_through :
  forall (A : Type) (ltA : A -> A -> bool) (xs : list A)
         (key : option (A -> Z)),
    isort xs 0 key = inr (Created xs 0 key) /\
    isort_list ltA xs 0 key = Some (xs, Exhausted).
Proof.
  intros A ltA xs key. split; [reflexivity | apply isort_list_zero].
Qed.

(** C2, as stated, fails: [isort([1, 2], bufsize=0)] raises nothing when
    it is called, and pulling from it gives [1], [2] and a normal end. *)
Lemma isort_bufsize_zero_no_error :
  (forall e, isort [1; 2]%Z 0 None <> inl e) /\
  isort_list Z.ltb [1; 2]%Z 0 None = Some ([1; 2]%Z, Exhausted).
Proof.
  split; [intros e H; discriminate H | reflexivity].
Qed.

(** C2, amended: for [bufsize <= 0] the call itself never fails, it
    returns a generator that has not started.  For [bufsize < 0] the
    first pull raises the [ValueError] of [take], before any item is
    yielded; for [bufsize = 0] nothing is raised at all and the input is
    passed through. *)
Theorem isort_nonpositive_bufsize :
  forall (A : Type) (ltA : A -> A -> bool) (xs : list A) (b : Z)
         (key : option (A -> Z)),
    (b <= 0)%Z ->
    isort xs b key = inr (Created xs b key) /\
    ((b < 0)%Z ->
     next ltA (Created xs b key) = Raise ValueError_islice_stop Finished /\
     isort_list ltA xs b key = Some ([], Failed ValueError_islice_stop)) /\
    (b = 0%Z -> isort_list ltA xs b key = Some (xs, Exhausted)).
Proof.
  intros A ltA xs b key Hb. split; [reflexivity|]. split.
  - intro Hneg. apply Z.ltb_lt in Hneg.
    unfold isort_list, isort. simpl. rewrite Hneg. split; reflexivity.
  - intro H0. subst b. apply isort_list_zero.
Qed.

Lemma isort_nonpositive_bufsize_witness :
  isort [3; 1; 2]%Z (-1)%Z None = inr (Created [3; 1; 2]%Z (-1)%Z None) /\
  ((-1 < 0)%Z ->
   next Z.ltb (Created [3; 1; 2]%Z (-1)%Z None)
   = Raise ValueError_islice_stop Finished /\
   isort_list Z.ltb [3; 1; 2]%Z (-1)%Z None
   = Some ([], Failed ValueError_islice_stop)) /\
  ((-1)%Z = 0%Z ->
   isort_list Z.ltb [3; 1; 2]%Z (-1)%Z None = Some ([3; 1; 2]%Z, Exhausted)).
Proof.
  apply (@isort_nonpositive_bufsize Z Z.ltb [3; 1; 2]%Z (-1)%Z None). lia.
Defined.

End IsortFacts.

(** ** sectionize: sections and their sub-streams *)

Module SectionizeFacts.
Import Py Sectionize.

Section WithItems.
Variable A : Type.
Variable pred : A -> bool.

Lemma next_section_head : forall x t,
  next_section pred {| buf := []; it := x :: t; outer := Running |}
  = if pred x
    then Yield (x, Running) {| buf := []; it := t; outer := Running |}
    else Raise (ValueError_expected_section x)
               {| buf := []; it := t; outer := Returned |}.
Proof. reflexivity. Qed.

(** Pulling the items in front of a sub-stream's next item leaves the
    shared iterator just before that item. *)
Lemma pulls_items : forall pre tail b o,
  forallb (fun y => negb (pred y)) pre = true ->
  pulls (iter_until_section pred) (length pre)
        (Running, {| buf := b; it := pre ++ tail; outer := o |})
  = (pre, None, (Running, {| buf := b; it := tail; outer := o |})).
Proof.
  induction pre as [|y pre' IH]; intros tail b o Hpre; [reflexivity|].
  simpl in Hpre. apply andb_true_iff in Hpre. destruct Hpre as [Hy Hpre].
  apply negb_true_iff in Hy.
  simpl. rewrite Hy. rewrite IH by exact Hpre. reflexivity.
Qed.

(** Draining a sub-stream: it stops at the end of the input, or at the
    next marker, which it leaves in [buf]. *)
Lemma drain_items : forall items tail b o fuel,
  forallb (fun y => negb (pred y)) items = true ->
  match tail with [] => True | mk :: _ => pred mk = true end ->
  length items < fuel ->
  collect (iter_until_section pred) fuel
          (Running, {| buf := b; it := items ++ tail; outer := o |})
  = Some (items, Exhausted,
          (Returned,
           match tail with
           | [] => {| buf := b; it := []; outer := o |}
           | mk :: t =>
               {| buf := deque_append b mk; it := t; outer := o |}
           end)).
Proof.
  induction items as [|y items' IH]; intros tail b o fuel Hit Htail Hf.
  - destruct fuel as [|fuel']; [simpl in Hf; lia|].
    destruct tail as [|mk t]; [reflexivity|].
    cbn in *. rewrite Htail. reflexivity.
  - destruct fuel as [|fuel']; [simpl in Hf; lia|].
    simpl in Hit. apply andb_true_iff in Hit. destruct Hit as [Hy Hit].
    apply negb_true_iff in Hy.
    simpl. rewrite Hy.
    rewrite IH; [reflexivity | exact Hit | exact Htail |].
    simpl in Hf. lia.
Qed.

Lemma sections_from_same_next : forall fuel w1 w2,
  next_section pred w1 = next_section pred w2 ->
  sections_from pred fuel w1 = sections_from pred fuel w2.
Proof.
  intros fuel w1 w2 H. destruct fuel; simpl; [reflexivity|].
  rewrite H. reflexivity.
Qed.

Lemma flatten_head : forall secs,
  well_formed pred secs = true ->
  match flatten secs with [] => True | mk :: _ => pred mk = true end.
Proof.
  intros [|[mk items] r] H; simpl; [exact I|].
  simpl in H. apply andb_true_iff in H. destruct H as [H _].
  apply andb_true_iff in H. destruct H as [H _]. exact H.
Qed.

(** Well-formed input comes back section by section; the demand that
    follows the last Section finds [buf] empty and the input exhausted. *)
Lemma sections_from_flatten : forall secs fuel,
  well_formed pred secs = true ->
  length (flatten secs) < fuel ->
  sections_from pred fuel
                {| buf := []; it := flatten secs; outer := Running |}
  = Some (secs, Failed (RuntimeError_generator_raised_StopIteration A)).
Proof.
  induction secs as [|[mk items] r IH]; intros fuel Hwf Hf.
  - destruct fuel as [|fuel']; [simpl in Hf; lia | reflexivity].
  - destruct fuel as [|fuel']; [simpl in Hf; lia|].
    pose proof Hwf as Hwf0.
    simpl in Hwf. apply andb_true_iff in Hwf. destruct Hwf as [Hsec Hr].
    apply andb_true_iff in Hsec. destruct Hsec as [Hmk Hitems].
    simpl in Hmk, Hitems.
    simpl in Hf. rewrite length_app in Hf.
    cbn [sections_from flatten]. rewrite next_section_head, Hmk.
    rewrite (drain_items items (flatten r) [] Running (fuel := fuel'));
      [|exact Hitems | apply flatten_head, Hr | lia].
    specialize (IH fuel' Hr).
    destruct (flatten r) as [|mk' t] eqn:Hfl.
    + rewrite IH by (simpl; lia). reflexivity.
    + rewrite (sections_from_same_next fuel'
                 {| buf := deque_append [] mk'; it := t; outer := Running |}
                 {| buf := []; it := mk' :: t; outer := Running |}
                 eq_refl).
      rewrite IH by lia. reflexivity.
Qed.

End WithItems.

(** C7: when the first item of a non-empty input is not a section,
    the first demand on [sectionize] raises the [ValueError] that names
    this item; no Section is yielded before it, whether or not
    sub-streams would be drained. *)
Theorem sectionize_rejects_leading_item :
  forall (A : Type) (pred : A -> bool) (x : A) (rest : list A),
    pred x = false ->
    next_section pred (sectionize (x :: rest))
    = Raise (ValueError_expected_section x)
            {| buf := []; it := rest; outer := Returned |} /\
    drained_sections pred (x :: rest)
    = Some ([], Failed (ValueError_expected_section x)) /\
    markers_only pred (x :: rest)
    = Some ([], Failed (ValueError_expected_section x)).
Proof.
  intros A pred x rest Hx.
  unfold drained_sections, markers_only, sectionize.
  cbn [sections_from collect]. rewrite next_section_head, Hx.
  repeat split; reflexivity.
Qed.

Lemma sectionize_rejects_leading_item_witness :
  next_section is_str (sectionize [Int 0; Str "B"])
  = Raise (ValueError_expected_section (Int 0))
          {| buf := []; it := [Str "B"]; outer := Returned |} /\
  drained_sections is_str [Int 0; Str "B"]
  = Some ([], Failed (ValueError_expected_section (Int 0))) /\
  markers_only is_str [Int 0; Str "B"]
  = Some ([], Failed (ValueError_expected_section (Int 0))).
Proof.
  apply (@sectionize_rejects_leading_item atom is_str (Int 0) [Str "B"]).
  reflexivity.
Defined.

(** C3, as stated, fails: on [['A', 0, 1, 2, 'B', 3, 4]] a caller that
    takes Section ['A'], pulls one item from its sub-stream and asks for
    the next Section gets [ValueError: expected a section, but found: 1],
    not Section ['B']; the items [2, 'B', 3, 4] are left unread.  The
    docstring shows the same with no item pulled: the markers alone
    cannot be listed. *)
Lemma sectionize_abandoned_substream_raises :
  abandon_after is_str 1 doc_data
  = Some (Str "A", [Int 0],
          Raise (ValueError_expected_section (Int 1))
                {| buf := [];
                   it := [Int 2; Str "B"; Int 3; Int 4];
                   outer := Returned |}) /\
  markers_only is_str doc_data
  = Some ([Str "A"], Failed (ValueError_expected_section (Int 0))).
Proof.
  split; reflexivity.
Qed.

(** C3, amended: if a caller abandons the current sub-stream while an
    item of it is still unread and then requests the next Section,
    [sectionize] raises [ValueError] "expected a section, but found: X"
    for the first unread item [X]; it discards nothing else, and the
    outer generator is finished. *)
Theorem sectionize_abandoned_substream :
  forall (A : Type) (pred : A -> bool) (m : A) (pre : list A) (x : A)
         (rest : list A),
    pred m = true ->
    forallb (fun y => negb (pred y)) pre = true ->
    pred x = false ->
    abandon_after pred (length pre) (m :: pre ++ x :: rest)
    = Some (m, pre,
            Raise (ValueError_expected_section x)
                  {| buf := []; it := rest; outer := Returned |}).
Proof.
  intros A pred m pre x rest Hm Hpre Hx.
  unfold abandon_after, sectionize.
  rewrite next_section_head, Hm.
  rewrite pulls_items by exact Hpre.
  rewrite next_section_head, Hx. reflexivity.
Qed.

Lemma sectionize_abandoned_substream_witness :
  abandon_after is_str (length [Int 0; Int 1])
                (Str "A" :: [Int 0; Int 1] ++ Int 2 :: [Str "B"; Int 3])
  = Some (Str "A", [Int 0; Int 1],
          Raise (ValueError_expected_section (Int 2))
                {| buf := []; it := [Str "B"; Int 3]; outer := Returned |}).
Proof.
  apply (@sectionize_abandoned_substream atom is_str (Str "A")
           [Int 0; Int 1] (Int 2) [Str "B"; Int 3]); reflexivity.
Defined.

(** C8: the code does not do what the claim and the doctests say.  With
    every sub-stream drained before the next Section is asked for, the
    two documented inputs give the documented Sections, and every input
    laid out as markers each followed by non-marker items comes back as
    exactly these Sections; a sub-stream that finds the input exhausted
    ends without error.  But the Section sequence does not end when the
    input is exhausted: the demand after the last Section runs
    [next(it)] on line 146, whose [StopIteration] leaves the generator's
    body as a [RuntimeError]. *)
Theorem sectionize_drained_ends_in_runtime_error :
  drained_sections is_str doc_data
  = Some ([(Str "A", [Int 0; Int 1; Int 2]); (Str "B", [Int 3; Int 4])],
          Failed (RuntimeError_generator_raised_StopIteration atom)) /\
  drained_sections is_str [Str "A"; Str "B"]
  = Some ([(Str "A", []); (Str "B", [])],
          Failed (RuntimeError_generator_raised_StopIteration atom)) /\
  (forall (A : Type) (pred : A -> bool) (secs : list (A * list A)),
      well_formed pred secs = true ->
      drained_sections pred (flatten secs)
      = Some (secs, Failed (RuntimeError_generator_raised_StopIteration A))) /\
  (forall (A : Type) (pred : A -> bool) (c : ctl) (b : list A) (o : ctl),
      iter_until_section pred (c, {| buf := b; it := []; outer := o |})
      = Stop (Returned, {| buf := b; it := []; outer := o |})) /\
  (forall (A : Type) (pred : A -> bool),
      next_section pred {| buf := []; it := []; outer := Running |}
      = Raise (RuntimeError_generator_raised_StopIteration A)
              {| buf := []; it := []; outer := Returned |}).
Proof.
  split; [reflexivity|]. split; [reflexivity|]. split; [|split].
  - intros A pred secs Hwf. unfold drained_sections, sectionize.
    apply sections_from_flatten; [exact Hwf | lia].
  - intros A pred c b o. destruct c; reflexivity.
  - intros A pred. reflexivity.
Qed.

Lemma sectionize_drained_ends_in_runtime_error_witness :
  drained_sections is_str
    (flatten [(Str "A", [Int 0; Int 1; Int 2]); (Str "B", [Int 3; Int 4])])
  = Some ([(Str "A", [Int 0; Int 1; Int 2]); (Str "B", [Int 3; Int 4])],
          Failed (RuntimeError_generator_raised_StopIteration atom)).
Proof.
  apply (proj1 (proj2 (proj2 sectionize_drained_ends_in_runtime_error))).
  reflexivity.
Defined.

End SectionizeFacts.

(** ** Scanner: scanning and the remainder *)

Module ScannerFacts.
Import Scanner.

Section WithItems.
Variable A : Type.
Variable pred : A -> bool.

Lemma take_drop_while : forall l,
  take_while pred l ++ drop_while pred l = l.
Proof.
  induction l as [|x r IH]; simpl; [reflexivity|].
  destruct (pred x); simpl; [rewrite IH|]; reflexivity.
Qed.

Lemma take_while_all : forall l, forallb pred (take_while pred l) = true.
Proof.
  induction l as [|x r IH]; simpl; [reflexivity|].
  destruct (pred x) eqn:Hx; simpl; [rewrite Hx, IH|]; reflexivity.
Qed.

Lemma drop_while_head : forall l,
  match drop_while pred l with
  | [] => True
  | x :: _ => pred x = false
  end.
Proof.
  induction l as [|x r IH]; simpl; [exact I|].
  destruct (pred x) eqn:Hx; [exact IH | exact Hx].
Qed.

(** A peek followed by a pull takes the first pending item. *)
Lemma peek_pending : forall (p : peekable A) x l,
  pending p = x :: l ->
  exists p1, peek p = Some (x, p1) /\ pending p1 = x :: l /\
             exists p2, pnext p1 = Some (x, p2) /\ pending p2 = l.
Proof.
  intros [c i] x l H. unfold pending in H. simpl in H.
  destruct c as [|y c'].
  - simpl in H. subst i.
    exists {| cache := [x]; it := l |}. repeat split.
    exists {| cache := []; it := l |}. split; reflexivity.
  - simpl in H. inversion H; subst.
    exists {| cache := x :: c'; it := i |}. repeat split.
    exists {| cache := c'; it := i |}. split; reflexivity.
Qed.

Lemma pnext_pending : forall (p : peekable A) x l,
  pending p = x :: l ->
  exists p', pnext p = Some (x, p') /\ pending p' = l.
Proof.
  intros [c i] x l H. unfold pending in H. simpl in H.
  destruct c as [|y c'].
  - simpl in H. subst i.
    exists {| cache := []; it := l |}. split; reflexivity.
  - simpl in H. inversion H; subst.
    exists {| cache := c'; it := i |}. split; reflexivity.
Qed.

Lemma exhausted_peekable : forall (p : peekable A),
  pending p = [] -> p = {| cache := []; it := [] |}.
Proof.
  intros [c i] H. unfold pending in H. simpl in H.
  apply app_eq_nil in H. destruct H; subst. reflexivity.
Qed.

(** The scan yields the longest prefix satisfying [pred] and leaves
    the rest pending; it ends by [break] at the first item that fails
    [pred], and in the [RuntimeError] when there is none. *)
Lemma collect_scan_while : forall l (p : peekable A) fuel,
  pending p = l -> length l < fuel ->
  exists p',
    collect (scan_while_next pred) fuel (Running, p)
    = Some (take_while pred l, scan_ending pred l, (Returned, p')) /\
    pending p' = drop_while pred l.
Proof.
  induction l as [|x r IH]; intros p fuel Hp Hf.
  - destruct fuel as [|fuel']; [simpl in Hf; lia|].
    apply exhausted_peekable in Hp. subst p.
    exists {| cache := []; it := [] |}. split; reflexivity.
  - destruct fuel as [|fuel']; [simpl in Hf; lia|].
    destruct (peek_pending p Hp)
      as (p1 & Hpeek & Hp1 & p2 & Hnext & Hp2).
    unfold scan_ending.
    cbn [collect scan_while_next take_while drop_while forallb].
    rewrite Hpeek.
    destruct (pred x) eqn:Hx.
    + rewrite Hnext.
      destruct (IH p2 fuel' Hp2) as (p' & Hc & Hp');
        [simpl in Hf; lia|].
      exists p'. rewrite Hc. split; [reflexivity | exact Hp'].
    + exists p1. split; [reflexivity | exact Hp1].
Qed.

(** Raw iteration yields everything that is pending. *)
Lemma collect_next : forall l (p : peekable A) fuel,
  pending p = l -> length l < fuel ->
  exists p',
    collect (@next A) fuel p = Some (l, Exhausted, p') /\
    pending p' = [].
Proof.
  induction l as [|x r IH]; intros p fuel Hp Hf.
  - destruct fuel as [|fuel']; [simpl in Hf; lia|].
    apply exhausted_peekable in Hp. subst p.
    exists {| cache := []; it := [] |}. split; reflexivity.
  - destruct fuel as [|fuel']; [simpl in Hf; lia|].
    destruct (pnext_pending p Hp) as (p1 & Hnext & Hp1).
    cbn [collect]. unfold next at 1. rewrite Hnext.
    destruct (IH p1 fuel' Hp1) as (p' & Hc & Hp');
      [simpl in Hf; lia|].
    exists p'. rewrite Hc. split; [reflexivity | exact Hp'].
Qed.

(** A Scanner that was iterated to its end is exhausted. *)
Lemma remainder_exhausts : forall (s : list A),
  exists p',
    remainder (Scanner s) = Some (s, Exhausted, p') /\ pending p' = [].
Proof.
  intro s. unfold remainder. change (pending (Scanner s)) with s.
  apply collect_next; [reflexivity | lia].
Qed.

End WithItems.

(** C4: the code does not do what the claim and
    [tests/test_scanner.py::test_scanner_empty] say.  On a Scanner whose
    stream is exhausted, in particular one made from an empty stream,
    [scan_while(p)] and [scan_until(p)] yield nothing, but they do not
    end normally: [self.stream.peek()] on line 309 raises
    [StopIteration] inside the generator, which surfaces as a
    [RuntimeError].  The Scanner is left as it was, so every later scan
    raises again; a raw pull finds the stream empty. *)
Theorem scanner_exhausted_scan_raises :
  forall (A : Type) (pred : A -> bool) (p : peekable A),
    pending p = [] ->
    scan_while pred p
    = Some ([], Failed RuntimeError_generator_raised_StopIteration, p) /\
    scan_until pred p
    = Some ([], Failed RuntimeError_generator_raised_StopIteration, p) /\
    scan_while_next pred (Running, p)
    = Raise RuntimeError_generator_raised_StopIteration (Returned, p) /\
    next p = Stop p /\
    remainder p = Some ([], Exhausted, p) /\
    Scanner (@nil A) = p.
Proof.
  intros A pred p Hp. apply exhausted_peekable in Hp. subst p.
  repeat split; reflexivity.
Qed.

Lemma scanner_exhausted_scan_raises_witness :
  scan_while (fun z => (3 <? z)%Z) (Scanner [])
  = Some ([], Failed RuntimeError_generator_raised_StopIteration, Scanner []) /\
  scan_until (fun z => (3 <? z)%Z) (Scanner [])
  = Some ([], Failed RuntimeError_generator_raised_StopIteration, Scanner []) /\
  scan_while_next (fun z => (3 <? z)%Z) (Running, Scanner [])
  = Raise RuntimeError_generator_raised_StopIteration
          (Returned, Scanner []) /\
  next (Scanner (@nil Z)) = Stop (Scanner []) /\
  remainder (Scanner (@nil Z)) = Some ([], Exhausted, Scanner []) /\
  Scanner (@nil Z) = Scanner [].
Proof.
  apply (@scanner_exhausted_scan_raises Z (fun z => (3 <? z)%Z)
           (Scanner [])).
  reflexivity.
Defined.

(** C6: the code does what the claim says only when some item of [s]
    fails [p].  On a fresh Scanner over a finite stream [s],
    [scan_while(p)] yields the longest prefix of items that satisfy [p],
    the raw iteration of the same Scanner then yields the rest from the
    first item that fails [p] on, and the two put together are [s].  The
    scan ends normally when it stops at an item that fails [p]; when
    every item of [s] satisfies [p] (also for the empty stream) it
    raises the [RuntimeError] after the last item, as on the stream
    [[4, 5, 6, 7]] with [p = (> 3)] of
    [tests/test_scanner.py::test_scanner_single_pred]. *)
Theorem scanner_scan_to_the_end_raises :
  scan_while (fun i => (3 <? i)%Z) (Scanner [4; 5; 6; 7]%Z)
  = Some ([4; 5; 6; 7]%Z,
          Failed RuntimeError_generator_raised_StopIteration,
          Scanner []) /\
  forall (A : Type) (pred : A -> bool) (s : list A),
    exists p1 p2,
      scan_while pred (Scanner s)
      = Some (take_while pred s, scan_ending pred s, p1) /\
      scan_ending pred s
      = (if forallb pred s
         then Failed RuntimeError_generator_raised_StopIteration
         else Exhausted) /\
      remainder p1 = Some (drop_while pred s, Exhausted, p2) /\
      take_while pred s ++ drop_while pred s = s /\
      forallb pred (take_while pred s) = true /\
      match drop_while pred s with
      | [] => True
      | x :: _ => pred x = false
      end /\
      pending p2 = [].
Proof.
  split; [reflexivity|].
  intros A pred s.
  destruct (@collect_scan_while A pred s (Scanner s) (S (length s))
              eq_refl (Nat.lt_succ_diag_r _)) as (p1 & Hc & Hp1).
  destruct (@collect_next A (pending p1) p1 (S (length (pending p1)))
              eq_refl (Nat.lt_succ_diag_r _)) as (p2 & Hr & Hp2).
  exists p1, p2.
  repeat split.
  - unfold scan_while. change (pending (Scanner s)) with s.
    rewrite Hc. reflexivity.
  - unfold remainder. rewrite Hr, Hp1. reflexivity.
  - apply take_drop_while.
  - apply take_while_all.
  - apply drop_while_head.
  - exact Hp2.
Qed.

End ScannerFacts.

(** ** grouper: runs of adjacent tuples *)

Module GrouperFacts.
Import Py Grouper.

Lemma split_rebuild : forall bare tup value r,
  split bare tup = inr (value, r) -> rebuild value r = tup.
Proof.
  intros bare tup value r H. destruct bare; simpl in H.
  - destruct tup as [|a [|b [|c t]]]; inversion H; subst. reflexivity.
  - destruct tup as [|a t]; inversion H; subst. reflexivity.
Qed.

Lemma atom_eqb_eq : forall a b, atom_eqb a b = true -> a = b.
Proof.
  intros [x|x] [y|y] H; simpl in H; try discriminate.
  - apply Z.eqb_eq in H. subst. reflexivity.
  - apply String.eqb_eq in H. subst. reflexivity.
Qed.

Lemma atom_eqb_sym : forall a b, atom_eqb a b = atom_eqb b a.
Proof.
  intros [x|x] [y|y]; simpl; try reflexivity.
  - apply Z.eqb_sym.
  - apply String.eqb_sym.
Qed.

(** The groups that come out hold the pending items and the remaining
    tuples, in their order; the first one continues the group that is
    being accumulated, and neighbouring groups have different keys. *)
Lemma run_loop_ungroup : forall bare tuples cur fuel,
  forallb (splits bare) tuples = true ->
  length tuples + open_groups cur <= fuel ->
  exists groups,
    continue fuel (run_loop bare tuples (last_id_of cur) (items_of cur))
    = Some (groups, Exhausted, Finished) /\
    ungroup groups = pending_of cur ++ tuples /\
    distinct_neighbours (map fst groups) = true /\
    (forall k l, cur = Some (k, l) ->
                 exists l' r', groups = (Id k, l') :: r').
Proof.
  intros bare tuples. induction tuples as [|tup r IH]; intros cur fuel Hok Hf.
  - destruct cur as [[k l]|]; simpl.
    + destruct fuel as [|fuel']; [simpl in Hf; lia|].
      exists [(Id k, l)]. split; [reflexivity|]. split; [|split].
      * simpl. rewrite !app_nil_r. reflexivity.
      * reflexivity.
      * intros k0 l0 H. inversion H; subst. exists l0, []. reflexivity.
    + exists []. repeat split. intros k l H. discriminate H.
  - simpl in Hok. apply andb_true_iff in Hok. destruct Hok as [Htup Hr].
    unfold splits in Htup.
    cbn [run_loop].
    destruct (split bare tup) as [e | [value rst]] eqn:Hsp; [discriminate|].
    apply split_rebuild in Hsp.
    destruct cur as [[k l]|]; cbn [last_id_of items_of differs].
    + destruct (atom_eqb value k) eqn:Hk; cbn [negb].
      * apply atom_eqb_eq in Hk. subst value.
        destruct (IH (Some (k, l ++ [rst])) fuel Hr)
          as (groups & Hc & Hu & Hd & Hh); [simpl in Hf |- *; lia|].
        exists groups. split; [exact Hc|]. split; [|split].
        -- rewrite Hu. simpl. rewrite map_app, <- app_assoc. simpl.
           rewrite Hsp. reflexivity.
        -- exact Hd.
        -- intros k0 l0 H. inversion H; subst.
           apply (Hh k0 (l0 ++ [rst])). reflexivity.
      * destruct fuel as [|fuel']; [simpl in Hf; lia|].
        destruct (IH (Some (value, [rst])) fuel' Hr)
          as (groups & Hc & Hu & Hd & Hh); [simpl in Hf |- *; lia|].
        exists ((Id k, l) :: groups). split; [|split; [|split]].
        -- change (continue (S fuel')
                     (Yield (Id k, l) (Loop bare r (Id value) (Some [rst]))))
             with (match continue fuel'
                           (run_loop bare r (Id value) (Some [rst])) with
                   | Some (vs, e, s'') => Some ((Id k, l) :: vs, e, s'')
                   | None => None
                   end).
           simpl in Hc. rewrite Hc. reflexivity.
        -- change (ungroup ((Id k, l) :: groups))
             with (map (rebuild k) l ++ ungroup groups).
           rewrite Hu. simpl. rewrite Hsp. reflexivity.
        -- destruct (Hh value [rst] eq_refl) as (l' & r' & Hg). subst groups.
           change (negb (atom_eqb k value)
                   && distinct_neighbours (map fst ((Id value, l') :: r'))
                   = true).
           rewrite Hd, atom_eqb_sym, Hk. reflexivity.
        -- intros k0 l0 H. inversion H; subst. exists l0, groups. reflexivity.
    + destruct (IH (Some (value, [rst])) fuel Hr)
        as (groups & Hc & Hu & Hd & Hh); [simpl in Hf |- *; lia|].
      exists groups. split; [exact Hc|]. split; [|split].
      * rewrite Hu. simpl. rewrite Hsp. reflexivity.
      * exact Hd.
      * intros k l H. discriminate H.
Qed.

(** C9: the three documented inputs give the documented groups; the
    input with the key [1] at both ends gives three groups, its two runs
    of key [1] are not merged.  In general the groups hold the input
    tuples in their input order, whatever the keys, and a new group
    starts exactly where the key changes: neighbouring groups never
    have the same key. *)
Theorem grouper_adjacent_runs :
  grouper_list [[Int 1; Int 2; Int 3]; [Int 1; Int 5; Int 7];
                [Int 2; Int 5; Int 7]] false
  = Some ([(Id (Int 1), [Tup [Int 2; Int 3]; Tup [Int 5; Int 7]]);
           (Id (Int 2), [Tup [Int 5; Int 7]])], Exhausted) /\
  grouper_list [[Int 1; Int 2]; [Int 1; Int 5]; [Int 2; Int 5]] true
  = Some ([(Id (Int 1), [Bare (Int 2); Bare (Int 5)]);
           (Id (Int 2), [Bare (Int 5)])], Exhausted) /\
  grouper_list [[Int 1; Str "a"]; [Int 2; Str "b"]; [Int 1; Str "c"]] false
  = Some ([(Id (Int 1), [Tup [Str "a"]]);
           (Id (Int 2), [Tup [Str "b"]]);
           (Id (Int 1), [Tup [Str "c"]])], Exhausted) /\
  grouper_list [[Int 1; Str "a"]; [Int 2; Str "b"]; [Int 1; Str "c"]] true
  = Some ([(Id (Int 1), [Bare (Str "a")]);
           (Id (Int 2), [Bare (Str "b")]);
           (Id (Int 1), [Bare (Str "c")])], Exhausted) /\
  (forall (tuples : list tuple) (bare : bool),
      forallb (splits bare) tuples = true ->
      exists groups,
        grouper_list tuples bare = Some (groups, Exhausted) /\
        ungroup groups = tuples /\
        distinct_neighbours (map fst groups) = true).
Proof.
  repeat (split; [reflexivity|]).
  intros tuples bare Hok.
  destruct (run_loop_ungroup bare tuples None (fuel := length tuples) Hok)
    as (groups & Hc & Hu & Hd & _); [simpl; lia|].
  exists groups. split; [|split; [exact Hu | exact Hd]].
  unfold grouper_list, grouper. cbn [collect next].
  simpl in Hc. unfold continue in Hc.
  destruct (run_loop bare tuples Dummy None) as [v s'|s'|e s'].
  - destruct (collect next (length tuples) s') as [[[vs e] s'']|];
      inversion Hc; subst. reflexivity.
  - inversion Hc; subst. reflexivity.
  - inversion Hc.
Qed.

Lemma grouper_adjacent_runs_witness :
  exists groups,
    grouper_list [[Int 1; Str "a"]; [Int 2; Str "b"]; [Int 1; Str "c"]]
                 false
    = Some (groups, Exhausted) /\
    ungroup groups
    = [[Int 1; Str "a"]; [Int 2; Str "b"]; [Int 1; Str "c"]] /\
    distinct_neighbours (map fst groups) = true.
Proof.
  apply (proj2 (proj2 (proj2 (proj2 grouper_adjacent_runs)))). reflexivity.
Defined.

End GrouperFacts.

(** ** isort: what every run guarantees *)

Module IsortMore.
Import Heapq Isort HeapqFacts IsortFacts.

Lemma plain_output_perm : forall (xs : list Z) n,
  Permutation (out_at xs n) xs.
Proof.
  intros xs n. unfold out_at.
  eapply perm_trans; [apply emitted_perm|].
  rewrite <- (firstn_skipn n xs) at 3.
  apply Permutation_app_tail, heapify_perm.
Qed.

(** X1: for every buffer size that [take] accepts, with or without a
    key function, [isort] ends normally and yields every input item
    exactly once: the output is a rearrangement of the input. *)
Theorem isort_yields_permutation :
  forall (A : Type) (ltA : A -> A -> bool) (xs : list A) (b : Z)
         (key : option (A -> Z)),
    (0 <= b)%Z ->
    exists out,
      isort_list ltA xs b key = Some (out, Exhausted) /\
      Permutation out xs.
Proof.
  intros A ltA xs b key Hb. destruct key as [k|].
  - exists (map (@undecorate A) (popped ltA xs b k)). split.
    + apply isort_list_keyed, Hb.
    + rewrite <- (decorate_undecorate k xs 0) at 2.
      apply Permutation_map, popped_perm.
  - eexists. split; [apply isort_list_plain, Hb|].
    eapply perm_trans; [apply emitted_perm|].
    rewrite <- (firstn_skipn (Z.to_nat b) xs) at 3.
    apply Permutation_app_tail, heapify_perm.
Qed.

Lemma isort_yields_permutation_witness :
  exists out,
    isort_list Z.ltb doc_a 3 (Some diff_from_three) = Some (out, Exhausted) /\
    Permutation out doc_a.
Proof.
  apply (@isort_yields_permutation Z Z.ltb doc_a 3%Z (Some diff_from_three)).
  lia.
Defined.

(** X2: when the buffer can hold the whole input, the output without a
    key function is the input in increasing order. *)
Theorem isort_large_buffer_sorts :
  forall (xs : list Z) (b : Z),
    (Z.of_nat (length xs) <= b)%Z ->
    exists out,
      isort_list Z.ltb xs b None = Some (out, Exhausted) /\
      StronglySorted Z.le out /\
      Permutation out xs.
Proof.
  intros xs b Hb. exists (out_at xs (Z.to_nat b)).
  split; [apply isort_list_plain; lia|].
  split; [|apply plain_output_perm].
  unfold out_at. rewrite firstn_all2 by lia. rewrite skipn_all2 by lia.
  cbn [emitted].
  apply (@heapify_sorted Z Z.ltb Z.le Z.le_trans Z_ltb_le Z_nltb_le).
Qed.

Lemma isort_large_buffer_sorts_witness :
  exists out,
    isort_list Z.ltb doc_a 10 None = Some (out, Exhausted) /\
    StronglySorted Z.le out /\
    Permutation out doc_a.
Proof.
  apply (isort_large_buffer_sorts doc_a (b := 10)). simpl. lia.
Defined.

(** X3: without a key function, the output is out of order only across
    the lookahead: if an item is yielded before a smaller one, the
    smaller one had not been read yet when the first was yielded, that
    is, it sits in the input beyond position [bufsize + p] for the
    output position [p] of the first. *)
Theorem isort_disorder_is_beyond_lookahead :
  forall (xs : list Z) (b : Z) (out : list Z) (p q : nat) (e d : Z),
    (0 <= b)%Z ->
    isort_list Z.ltb xs b None = Some (out, Exhausted) ->
    p < q ->
    nth_error out p = Some e ->
    nth_error out q = Some d ->
    (d < e)%Z ->
    exists m, (b + Z.of_nat p < Z.of_nat m)%Z /\ nth_error xs m = Some d.
Proof.
  intros xs b out p q e d Hb Hrun Hpq Hp Hq Hlt.
  rewrite isort_list_plain in Hrun by exact Hb.
  inversion Hrun; subst out; clear Hrun.
  destruct (@emitted_order Z Z.ltb Z.le Z.le_trans Z_ltb_le Z_nltb_le
              (skipn (Z.to_nat b) xs)
              (heapify Z.ltb (firstn (Z.to_nat b) xs)) p q e d
              (@heapify_sorted Z Z.ltb Z.le Z.le_trans Z_ltb_le Z_nltb_le
                 (firstn (Z.to_nat b) xs))
              Hpq Hp Hq) as [Hle | [m [Hm Hnth]]]; [lia|].
  rewrite nth_error_skipn in Hnth.
  exists (Z.to_nat b + m). split; [lia | exact Hnth].
Qed.

Lemma isort_disorder_is_beyond_lookahead_witness :
  exists m, (3 + Z.of_nat 4 < Z.of_nat m)%Z /\ nth_error doc_a m = Some 0%Z.
Proof.
  apply (@isort_disorder_is_beyond_lookahead doc_a 3%Z
           [1; 2; 3; 4; 5; 0; 6; 7; 8; 9]%Z 4 5 5%Z 0%Z);
    try reflexivity; lia.
Defined.

Section Keyed.
Variable A : Type.
Variable ltA : A -> A -> bool.
Variable key : A -> Z.

Lemma decorate_in : forall xs c d,
  In d (decorate key c xs) ->
  dkey d = key (undecorate d) /\ (counter d <= c)%Z.
Proof.
  induction xs as [|x r IH]; intros c d H; [contradiction|].
  destruct H as [H | H].
  - subst d. unfold dkey, counter, undecorate; simpl. lia.
  - apply IH in H. destruct H as [Hk Hc]. split; [exact Hk | lia].
Qed.

Lemma sorted_map_keys : forall l : list (dec A),
  StronglySorted (@dec_le A) l ->
  Forall (fun d => dkey d = key (undecorate d)) l ->
  StronglySorted (fun x y => (key x <= key y)%Z) (map (@undecorate A) l).
Proof.
  intros l Hs. induction Hs as [|a r Hs IH Hall]; intro Hk; simpl.
  - constructor.
  - inversion Hk as [|? ? Ha Hr]; subst.
    constructor; [apply IH, Hr|].
    rewrite Forall_forall in *. intros y Hy.
    apply in_map_iff in Hy. destruct Hy as (d & Hd & Hin). subst y.
    specialize (Hall d Hin). specialize (Hr d Hin).
    unfold dec_le in Hall. rewrite <- Ha, <- Hr. lia.
Qed.

Lemma insert_after_all : forall (x : dec A) h,
  Forall (fun m => dec_ltb ltA x m = false) h ->
  insert (dec_ltb ltA) x h = h ++ [x].
Proof.
  intros x h H. induction H as [|m r Hm Hr IH]; simpl; [reflexivity|].
  rewrite Hm, IH. reflexivity.
Qed.

Lemma heapify_equal_keys : forall xs c k,
  Forall (fun x => key x = k) xs ->
  heapify (dec_ltb ltA) (decorate key c xs) = rev (decorate key c xs).
Proof.
  induction xs as [|x r IH]; intros c k Hk; [reflexivity|].
  inversion Hk as [|? ? Hx Hr]; subst.
  cbn [decorate heapify rev]. rewrite (IH (c - 1)%Z (key x) Hr).
  apply insert_after_all.
  rewrite Forall_forall. intros m Hm. apply in_rev in Hm.
  pose proof (decorate_in _ _ _ Hm) as [Hmk Hmc].
  destruct m as [[mk mc] mx]. unfold dkey, counter, undecorate in *.
  simpl in *.
  assert (Hin : In mx r).
  { apply (in_map (@undecorate A)) in Hm.
    rewrite decorate_undecorate in Hm. exact Hm. }
  rewrite Forall_forall in Hr. rewrite (Hr mx Hin) in Hmk. subst mk.
  rewrite Z.eqb_refl. simpl.
  destruct (c =? mc)%Z eqn:Hc; [apply Z.eqb_eq in Hc; lia|].
  simpl. apply Z.ltb_ge. lia.
Qed.

End Keyed.

(** X4: when the buffer can hold the whole input, the output under a key
    function is in non-decreasing order of the keys. *)
Theorem isort_large_buffer_sorts_by_key :
  forall (A : Type) (ltA : A -> A -> bool) (xs : list A) (b : Z)
         (key : A -> Z),
    (Z.of_nat (length xs) <= b)%Z ->
    exists out,
      isort_list ltA xs b (Some key) = Some (out, Exhausted) /\
      StronglySorted (fun x y => (key x <= key y)%Z) out /\
      Permutation out xs.
Proof.
  intros A ltA xs b key Hb.
  exists (map (@undecorate A) (popped ltA xs b key)).
  split; [apply isort_list_keyed; lia|].
  split.
  - apply sorted_map_keys.
    + unfold popped, take.
      rewrite firstn_all2 by (rewrite decorate_length; lia).
      rewrite skipn_all2 by (rewrite decorate_length; lia).
      cbn [emitted].
      apply (@heapify_sorted (dec A) (dec_ltb ltA) (@dec_le A)
               (@dec_le_trans A) (@dec_ltb_le A ltA) (@dec_nltb_le A ltA)).
    + rewrite Forall_forall. intros d Hd.
      eapply Permutation_in in Hd; [|apply popped_perm].
      apply (decorate_in key xs 0 d Hd).
  - rewrite <- (decorate_undecorate key xs 0) at 2.
    apply Permutation_map, popped_perm.
Qed.

Lemma isort_large_buffer_sorts_by_key_witness :
  exists out,
    isort_list Z.ltb doc_a 10 (Some diff_from_three) = Some (out, Exhausted) /\
    StronglySorted (fun x y => (diff_from_three x <= diff_from_three y)%Z) out /\
    Permutation out doc_a.
Proof.
  apply (@isort_large_buffer_sorts_by_key Z Z.ltb doc_a 10%Z diff_from_three).
  simpl. lia.
Defined.

(** X5: when the buffer can hold the whole input and every item has the
    same key, the output is the input reversed: equal keys come out
    latest arrival first. *)
Theorem isort_equal_keys_reverses :
  forall (A : Type) (ltA : A -> A -> bool) (xs : list A) (b : Z)
         (key : A -> Z) (k : Z),
    (Z.of_nat (length xs) <= b)%Z ->
    Forall (fun x => key x = k) xs ->
    isort_list ltA xs b (Some key) = Some (rev xs, Exhausted).
Proof.
  intros A ltA xs b key k Hb Hk.
  rewrite isort_list_keyed by lia.
  unfold popped, take.
  rewrite firstn_all2 by (rewrite decorate_length; lia).
  rewrite skipn_all2 by (rewrite decorate_length; lia).
  cbn [emitted].
  rewrite (@heapify_equal_keys A ltA key xs 0%Z k Hk).
  rewrite map_rev, decorate_undecorate. reflexivity.
Qed.

Lemma isort_equal_keys_reverses_witness :
  isort_list Z.ltb [7; 5; 9]%Z 3 (Some (fun _ => 0%Z))
  = Some (rev [7; 5; 9]%Z, Exhausted).
Proof.
  apply (@isort_equal_keys_reverses Z Z.ltb [7; 5; 9]%Z 3%Z
           (fun _ => 0%Z) 0%Z).
  - simpl. lia.
  - repeat constructor.
Defined.

End IsortMore.

(** ** Scanner: operations from any position *)

Module ScannerMore.
Import Scanner ScannerFacts ScannerOps.

Section WithItems.
Variable A : Type.

Lemma scan_while_any : forall (pred : A -> bool) (p : peekable A),
  exists p',
    scan_while pred p
    = Some (take_while pred (pending p), scan_ending pred (pending p), p') /\
    pending p' = drop_while pred (pending p).
Proof.
  intros pred p.
  destruct (@collect_scan_while A pred (pending p) p
              (S (length (pending p))) eq_refl (Nat.lt_succ_diag_r _))
    as (p' & Hc & Hp').
  exists p'. split; [|exact Hp'].
  unfold scan_while. rewrite Hc. reflexivity.
Qed.

(** A scan ends normally exactly when it stopped in front of an item. *)
Lemma scan_ending_drop_while : forall (pred : A -> bool) l,
  match drop_while pred l with
  | x :: _ => pred x = false /\ scan_ending pred l = Exhausted
  | [] =>
      scan_ending pred l
      = Failed RuntimeError_generator_raised_StopIteration
  end.
Proof.
  intros pred l. unfold scan_ending.
  induction l as [|x r IH]; simpl; [reflexivity|].
  destruct (pred x) eqn:Hx; simpl; [exact IH|].
  split; [exact Hx | reflexivity].
Qed.

Lemma take_while_drop_while : forall (pred : A -> bool) l,
  take_while pred (drop_while pred l) = [].
Proof.
  induction l as [|x r IH]; simpl; [reflexivity|].
  destruct (pred x) eqn:Hx; [exact IH|]. simpl. rewrite Hx. reflexivity.
Qed.

Lemma drop_while_drop_while : forall (pred : A -> bool) l,
  drop_while pred (drop_while pred l) = drop_while pred l.
Proof.
  induction l as [|x r IH]; simpl; [reflexivity|].
  destruct (pred x) eqn:Hx; [exact IH|]. simpl. rewrite Hx. reflexivity.
Qed.

Lemma next_pending : forall (p : peekable A),
  match pending p with
  | x :: l => exists p', next p = Yield x p' /\ pending p' = l
  | [] => next p = Stop p
  end.
Proof.
  intro p. destruct (pending p) as [|x l] eqn:Hp.
  - apply exhausted_peekable in Hp. subst p. reflexivity.
  - destruct (pnext_pending p Hp) as (p' & Hn & Hp').
    exists p'. unfold next. rewrite Hn. split; [reflexivity | exact Hp'].
Qed.

Lemma scan_op_conserves : forall (pred : A -> bool) (p : peekable A),
  exists out f p',
    match scan_while pred p with
    | Some (out, Exhausted, p') => Some (out, None, p')
    | Some (out, Failed _, p') => Some (out, Some RuntimeError, p')
    | None => None
    end = Some (out, f, p') /\
    out ++ pending p' = pending p /\
    match f with Some _ => pending p' = [] | None => True end.
Proof.
  intros pred p. destruct (scan_while_any pred p) as (p' & Hs & Hp').
  rewrite Hs.
  pose proof (scan_ending_drop_while pred (pending p)) as He.
  rewrite <- Hp' in He.
  assert (Hcat : take_while pred (pending p) ++ pending p' = pending p)
    by (rewrite Hp'; apply take_drop_while).
  destruct (pending p') as [|x l] eqn:Hpp.
  - rewrite He. exists (take_while pred (pending p)), (Some RuntimeError), p'.
    rewrite Hpp. repeat split. exact Hcat.
  - destruct He as [_ He]. rewrite He.
    exists (take_while pred (pending p)), None, p'.
    rewrite Hpp. repeat split. exact Hcat.
Qed.

Lemma run_op_conserves : forall (o : op A) (p : peekable A),
  exists out f p',
    run_op o p = Some (out, f, p') /\
    out ++ pending p' = pending p /\
    match f with Some _ => pending p' = [] | None => True end.
Proof.
  intros [pred | pred |] p.
  - apply scan_op_conserves.
  - apply (scan_op_conserves (invert pred)).
  - pose proof (next_pending p) as H. simpl.
    destruct (pending p) as [|x l] eqn:Hp.
    + exists [], (Some StopIteration), p. rewrite H.
      repeat split; exact Hp.
    + destruct H as (p' & Hn & Hp'). exists [x], None, p'. rewrite Hn.
      repeat split. simpl. rewrite Hp'. reflexivity.
Qed.

End WithItems.

(** X6: from any position of a Scanner, [scan_while(pred)] yields the
    longest run of pending items that satisfy [pred] and leaves pending
    exactly the items from the first one that fails [pred] on; that item
    is not consumed.  The scan ends normally when it stops in front of
    such an item; when every pending item satisfies [pred] it takes them
    all and then raises the [RuntimeError]. *)
Theorem scan_while_from_any_position :
  forall (A : Type) (pred : A -> bool) (p : peekable A),
    exists e p',
      scan_while pred p = Some (take_while pred (pending p), e, p') /\
      pending p' = drop_while pred (pending p) /\
      take_while pred (pending p) ++ pending p' = pending p /\
      match pending p' with
      | x :: _ => pred x = false /\ e = Exhausted
      | [] => e = Failed RuntimeError_generator_raised_StopIteration
      end.
Proof.
  intros A pred p. destruct (scan_while_any pred p) as (p' & Hs & Hp').
  exists (scan_ending pred (pending p)), p'.
  split; [exact Hs|]. split; [exact Hp'|]. split.
  - rewrite Hp'. apply take_drop_while.
  - rewrite Hp'. apply scan_ending_drop_while.
Qed.

(** X7: [skip_until(pred)] leaves the Scanner in front of the first
    pending item that satisfies [pred]: it then ends normally, the next
    raw pull gives that item and the items after it stay pending.  If
    no pending item satisfies [pred], [skip_until] takes every item,
    raises the [RuntimeError] and leaves the Scanner exhausted. *)
Theorem skip_until_stops_at_first_match :
  forall (A : Type) (pred : A -> bool) (p : peekable A),
    exists e p1,
      skip_until pred p = Some (e, p1) /\
      pending p1 = drop_while (invert pred) (pending p) /\
      match pending p1 with
      | x :: l =>
          pred x = true /\ e = Exhausted /\
          exists p2, next p1 = Yield x p2 /\ pending p2 = l
      | [] =>
          e = Failed RuntimeError_generator_raised_StopIteration /\
          next p1 = Stop p1
      end.
Proof.
  intros A pred p.
  destruct (scan_while_any (invert pred) p) as (p1 & Hs & Hp1).
  exists (scan_ending (invert pred) (pending p)), p1.
  split; [|split; [exact Hp1|]].
  - unfold skip_until, skip_while. rewrite Hs. reflexivity.
  - pose proof (next_pending p1) as Hn.
    pose proof (scan_ending_drop_while (invert pred) (pending p)) as Hh.
    rewrite <- Hp1 in Hh.
    destruct (pending p1) as [|x l]; [split; [exact Hh | exact Hn]|].
    destruct Hh as [Hx He]. split; [|split; [exact He | exact Hn]].
    unfold invert in Hx. apply negb_false_iff in Hx. exact Hx.
Qed.

(** X8: a scan that directly follows a scan with the same predicate
    that ended normally yields nothing, ends normally and leaves the
    same items pending. *)
Theorem scan_while_again_yields_nothing :
  forall (A : Type) (pred : A -> bool) (p p1 : peekable A)
         (out : list A),
    scan_while pred p = Some (out, Exhausted, p1) ->
    exists p2,
      scan_while pred p1 = Some ([], Exhausted, p2) /\
      pending p2 = pending p1.
Proof.
  intros A pred p p1 out H.
  destruct (scan_while_any pred p) as (p1' & Hs & Hp1).
  rewrite Hs in H. injection H as Hout He Hp. subst p1'.
  pose proof (scan_ending_drop_while pred (pending p)) as H1.
  rewrite He, <- Hp1 in H1.
  destruct (scan_while_any pred p1) as (p2 & Hs2 & Hp2).
  exists p2. rewrite Hs2, Hp2.
  destruct (pending p1) as [|x l]; [discriminate H1|].
  destruct H1 as [Hx _].
  unfold scan_ending. simpl. rewrite Hx. split; reflexivity.
Qed.

Lemma scan_while_again_yields_nothing_witness :
  exists p2,
    scan_while (fun z => (z <? 2)%Z) {| cache := [2%Z]; it := [3%Z] |}
    = Some ([], Exhausted, p2) /\
    pending p2 = pending {| cache := [2%Z]; it := [3%Z] |}.
Proof.
  apply (@scan_while_again_yields_nothing Z (fun z => (z <? 2)%Z)
           (Scanner [0; 1; 2; 3]%Z) {| cache := [2%Z]; it := [3%Z] |}
           [0; 1]%Z).
  reflexivity.
Defined.

(** X9: whatever sequence of [scan_while], [scan_until] and [next] is
    applied to a Scanner, up to the first operation that raises, the
    items that the operations took from the Scanner, in order, followed
    by the items still pending are exactly the items that were pending
    at the start: nothing is lost, duplicated or reordered.  An
    operation raises only on exhaustion: a scan that runs out of items
    raises [RuntimeError], a [next] with nothing pending raises
    [StopIteration], and after either nothing is pending. *)
Theorem scanner_operations_conserve_items :
  forall (A : Type) (os : list (op A)) (p : peekable A),
    exists outs f p',
      run_ops os p = Some (outs, f, p') /\
      concat outs ++ pending p' = pending p /\
      match f with Some _ => pending p' = [] | None => True end /\
      exists p'', remainder p' = Some (pending p', Exhausted, p'').
Proof.
  intros A os. induction os as [|o os' IH]; intro p.
  - exists [], None, p. split; [reflexivity|]. split; [reflexivity|].
    split; [exact I|].
    destruct (@collect_next A (pending p) p (S (length (pending p)))
                eq_refl (Nat.lt_succ_diag_r _)) as (p'' & Hc & _).
    exists p''. exact Hc.
  - destruct (run_op_conserves o p) as (out & f & p1 & Ho & Hc & Hf).
    destruct f as [f|].
    + exists [out], (Some f), p1. cbn [run_ops]. rewrite Ho.
      split; [reflexivity|]. split; [simpl; rewrite app_nil_r; exact Hc|].
      split; [exact Hf|].
      destruct (@collect_next A (pending p1) p1 (S (length (pending p1)))
                  eq_refl (Nat.lt_succ_diag_r _)) as (p'' & Hr & _).
      exists p''. exact Hr.
    + destruct (IH p1) as (outs & f & p' & Hr & Hcs & Hf' & Hrem).
      exists (out :: outs), f, p'. cbn [run_ops]. rewrite Ho, Hr.
      split; [reflexivity|]. split; [|split; [exact Hf' | exact Hrem]].
      simpl. rewrite <- app_assoc, Hcs. exact Hc.
Qed.

End ScannerMore.

(** ** sectionize: markers, the one-slot buffer and stale sub-streams *)

Module SectionizeMore.
Import Py Sectionize SectionizeFacts SectionizeAliasing.

Section WithItems.
Variable A : Type.
Variable pred : A -> bool.

(** Listing Sections without touching their sub-streams goes on as long
    as markers follow each other. *)
Lemma collect_markers : forall ms tail fuel,
  forallb pred ms = true ->
  length ms < fuel ->
  collect (next_section pred) fuel
          {| buf := []; it := ms ++ tail; outer := Running |}
  = match collect (next_section pred) (fuel - length ms)
                  {| buf := []; it := tail; outer := Running |} with
    | Some (secs, e, w) => Some (map (fun m => (m, Running)) ms ++ secs, e, w)
    | None => None
    end.
Proof.
  induction ms as [|m r IH]; intros tail fuel Hms Hf.
  - simpl. rewrite Nat.sub_0_r.
    destruct (collect (next_section pred) fuel
                      {| buf := []; it := tail; outer := Running |})
      as [[[secs e] w]|]; reflexivity.
  - destruct fuel as [|fuel']; [simpl in Hf; lia|].
    simpl in Hms. apply andb_true_iff in Hms. destruct Hms as [Hm Hr].
    cbn [collect app]. rewrite next_section_head, Hm.
    rewrite IH by (simpl in Hf; try exact Hr; lia).
    cbn [length Nat.sub].
    destruct (collect (next_section pred) (fuel' - length r)
                      {| buf := []; it := tail; outer := Running |})
      as [[[secs e] w]|]; reflexivity.
Qed.

End WithItems.

(** X10: the markers can be listed without draining the sub-streams
    exactly as far as the input consists of markers.  The first item
    that is not a marker raises the [ValueError] naming it, after the
    markers before it were yielded; on an input of markers only, all of
    them are yielded and the demand after the last one raises the
    [RuntimeError] of line 146. *)
Theorem sectionize_markers_without_draining :
  forall (A : Type) (pred : A -> bool) (ms : list A),
    forallb pred ms = true ->
    markers_only pred ms
    = Some (ms, Failed (RuntimeError_generator_raised_StopIteration A)) /\
    forall (x : A) (rest : list A),
      pred x = false ->
      markers_only pred (ms ++ x :: rest)
      = Some (ms, Failed (ValueError_expected_section x)).
Proof.
  intros A pred ms Hms. split.
  - unfold markers_only, sectionize.
    rewrite <- (app_nil_r ms) at 2.
    rewrite collect_markers by (try exact Hms; lia).
    replace (S (length ms) - length ms) with 1 by lia.
    cbn [collect]. simpl. rewrite app_nil_r, map_map, map_id. reflexivity.
  - intros x rest Hx. unfold markers_only, sectionize.
    rewrite collect_markers
      by (try exact Hms; rewrite length_app; simpl; lia).
    rewrite length_app. cbn [length].
    replace (S (length ms + S (length rest)) - length ms)
      with (S (S (length rest))) by lia.
    cbn [collect]. rewrite next_section_head, Hx.
    rewrite app_nil_r, map_map, map_id. reflexivity.
Qed.

Lemma sectionize_markers_without_draining_witness :
  markers_only is_str [Str "A"; Str "B"]
  = Some ([Str "A"; Str "B"],
          Failed (RuntimeError_generator_raised_StopIteration atom)) /\
  forall (x : atom) (rest : list atom),
    is_str x = false ->
    markers_only is_str ([Str "A"; Str "B"] ++ x :: rest)
    = Some ([Str "A"; Str "B"], Failed (ValueError_expected_section x)).
Proof.
  apply (@sectionize_markers_without_draining atom is_str
           [Str "A"; Str "B"]).
  reflexivity.
Defined.

(** X11: the one-slot buffer keeps only the last marker that a
    sub-stream ran into.  When a caller holds two Sections at once,
    drains the second sub-stream (which stops at marker [c]) and then
    the first one, the first sub-stream yields the items that follow
    [c], runs into marker [d] and overwrites [c]: the next Section is
    [d], and [c] is never yielded as a Section. *)
Theorem sectionize_stale_substream_loses_marker :
  forall (A : Type) (pred : A -> bool) (a b c d : A)
         (xs ys rest : list A),
    pred a = true -> pred b = true -> pred c = true -> pred d = true ->
    forallb (fun y => negb (pred y)) xs = true ->
    forallb (fun y => negb (pred y)) ys = true ->
    stale_substream pred (a :: b :: xs ++ c :: ys ++ d :: rest)
    = Some (a, b, xs, ys,
            Yield (d, Running)
                  {| buf := []; it := rest; outer := Running |}).
Proof.
  intros A pred a b c d xs ys rest Ha Hb Hc Hd Hxs Hys.
  unfold stale_substream, sectionize.
  rewrite next_section_head, Ha.
  rewrite next_section_head, Hb.
  rewrite (@drain_items A pred xs (c :: ys ++ d :: rest) [] Running);
    [|exact Hxs | exact Hc |].
  2:{ cbn [length]. rewrite length_app. lia. }
  rewrite (@drain_items A pred ys (d :: rest) (deque_append [] c) Running);
    [|exact Hys | exact Hd |].
  2:{ cbn [length]. rewrite !length_app. cbn [length].
      rewrite length_app. lia. }
  unfold next_section. simpl. rewrite Hd. reflexivity.
Qed.

Lemma sectionize_stale_substream_loses_marker_witness :
  stale_substream is_str
    (Str "A" :: Str "B" :: [Int 1] ++ Str "C" :: [Int 2] ++ Str "D" :: [Int 3])
  = Some (Str "A", Str "B", [Int 1], [Int 2],
          Yield (Str "D", Running)
                {| buf := []; it := [Int 3]; outer := Running |}).
Proof.
  apply (@sectionize_stale_substream_loses_marker atom is_str
           (Str "A") (Str "B") (Str "C") (Str "D")
           [Int 1] [Int 2] [Int 3]); reflexivity.
Defined.

(** X12: the pushback buffer never grows: a step of the Section
    sequence or of any sub-stream, in any order, leaves at most one
    item in [buf] when there was at most one before, and a fresh
    [sectionize] starts with none. *)
Theorem sectionize_buffer_holds_one_item :
  forall (A : Type) (pred : A -> bool) (w : world A) (c : ctl),
    length (buf w) <= 1 ->
    length (buf (after (next_section pred w))) <= 1 /\
    length (buf (snd (after (iter_until_section pred (c, w))))) <= 1 /\
    forall data : list A, length (buf (sectionize data)) = 0.
Proof.
  intros A pred [b i o] c Hb. simpl in Hb. split; [|split].
  - unfold next_section. simpl.
    destruct o; [|simpl; exact Hb].
    destruct b as [|x b'].
    + destruct i as [|y i']; [simpl; lia|].
      destruct (pred y); simpl; lia.
    + destruct (pred x); simpl; simpl in Hb; lia.
  - destruct c; simpl; [|exact Hb].
    destruct i as [|y i']; [simpl; exact Hb|].
    destruct (pred y); simpl; [|exact Hb].
    unfold deque_append. rewrite length_skipn, length_app. simpl. lia.
  - reflexivity.
Qed.

Lemma sectionize_buffer_holds_one_item_witness :
  length (buf (after (next_section is_str
                        {| buf := [Str "B"]; it := [Int 3];
                           outer := Running |}))) <= 1 /\
  length (buf (snd (after (iter_until_section is_str
                             (Running,
                              {| buf := [Str "B"]; it := [Int 3];
                                 outer := Running |}))))) <= 1 /\
  forall data : list atom, length (buf (sectionize data)) = 0.
Proof.
  apply (@sectionize_buffer_holds_one_item atom is_str
           {| buf := [Str "B"]; it := [Int 3]; outer := Running |} Running).
  simpl. lia.
Defined.

End SectionizeMore.

(** ** grouper: malformed tuples and the shape of the groups *)

Module GrouperMore.
Import Py Grouper GrouperFacts GrouperRuns.

Lemma continue_yield : forall fuel v bare tuples last_id items,
  continue (S fuel) (Yield v (Loop bare tuples last_id items))
  = match continue fuel (run_loop bare tuples last_id items) with
    | Some (vs, e, s) => Some (v :: vs, e, s)
    | None => None
    end.
Proof. reflexivity. Qed.

(** Up to a tuple that cannot be taken apart: the groups that were
    completed are yielded, the open run is lost. *)
Lemma run_loop_fails : forall bare pre bad rest e cur fuel,
  forallb (splits bare) pre = true ->
  split bare bad = inl e ->
  length pre + open_groups cur <= fuel ->
  exists groups,
    continue fuel (run_loop bare (pre ++ bad :: rest)
                            (last_id_of cur) (items_of cur))
    = Some (groups, Failed e, Finished) /\
    ungroup groups
    ++ open_run_from bare (option_map fst cur) (pending_of cur) pre
    = pending_of cur ++ pre.
Proof.
  intros bare pre bad rest e.
  induction pre as [|tup r IH]; intros cur fuel Hok Hbad Hf.
  - cbn [app run_loop]. rewrite Hbad.
    exists []. split; [reflexivity|].
    simpl. rewrite app_nil_r. reflexivity.
  - simpl in Hok. apply andb_true_iff in Hok. destruct Hok as [Htup Hr].
    unfold splits in Htup.
    cbn [app run_loop open_run_from]. unfold key_of.
    destruct (split bare tup) as [e' | [value rst]] eqn:Hsp; [discriminate|].
    apply split_rebuild in Hsp.
    destruct cur as [[k l]|];
      cbn [last_id_of items_of differs option_map fst pending_of].
    + destruct (atom_eqb value k) eqn:Hk; cbn [negb].
      * apply atom_eqb_eq in Hk. subst value.
        destruct (IH (Some (k, l ++ [rst])) fuel Hr Hbad)
          as (groups & Hc & Hu); [simpl in Hf |- *; lia|].
        exists groups. split; [exact Hc|].
        cbn [option_map fst pending_of] in Hu.
        rewrite map_app in Hu. simpl in Hu. rewrite Hsp in Hu.
        rewrite Hu, <- app_assoc. reflexivity.
      * destruct fuel as [|fuel']; [simpl in Hf; lia|].
        destruct (IH (Some (value, [rst])) fuel' Hr Hbad)
          as (groups & Hc & Hu); [simpl in Hf |- *; lia|].
        exists ((Id k, l) :: groups). split.
        -- rewrite continue_yield. simpl in Hc. rewrite Hc. reflexivity.
        -- cbn [option_map fst pending_of map] in Hu. rewrite Hsp in Hu.
           change (ungroup ((Id k, l) :: groups))
             with (map (rebuild k) l ++ ungroup groups).
           rewrite <- app_assoc, Hu. reflexivity.
    + destruct (IH (Some (value, [rst])) fuel Hr Hbad)
        as (groups & Hc & Hu); [simpl in Hf |- *; lia|].
      exists groups. split; [exact Hc|].
      cbn [option_map fst pending_of map] in Hu. rewrite Hsp in Hu.
      exact Hu.
Qed.

(** The open run is not empty once a tuple was read. *)
Lemma open_run_from_nonempty : forall bare tuples k acc,
  forallb (splits bare) tuples = true ->
  acc <> [] \/ tuples <> [] ->
  open_run_from bare k acc tuples <> [].
Proof.
  intros bare tuples. induction tuples as [|tup r IH]; intros k acc Hok H.
  - destruct H as [H | H]; [exact H | contradiction].
  - simpl in Hok. apply andb_true_iff in Hok. destruct Hok as [Htup Hr].
    unfold splits in Htup. cbn [open_run_from]. unfold key_of.
    destruct (split bare tup) as [e' | [value rst]]; [discriminate|].
    destruct k as [k0|].
    + destruct (atom_eqb value k0); apply IH; try exact Hr; left.
      * intro E. apply app_eq_nil in E. destruct E; discriminate.
      * discriminate.
    + apply IH; [exact Hr | left; discriminate].
Qed.

(** The tuples of the open run share their key. *)
Lemma open_run_from_one_key : forall bare tuples k acc,
  (forall k0, k = Some k0 ->
              Forall (fun t => key_of bare t = Some k0) acc) ->
  (k = None -> acc = []) ->
  exists kf,
    Forall (fun t => key_of bare t = Some kf)
           (open_run_from bare k acc tuples).
Proof.
  intros bare tuples. induction tuples as [|tup r IH]; intros k acc Hk Hn.
  - simpl. destruct k as [k0|].
    + exists k0. apply Hk. reflexivity.
    + exists (Int 0). rewrite Hn by reflexivity. constructor.
  - cbn [open_run_from].
    destruct (key_of bare tup) as [v|] eqn:Hv.
    + destruct k as [k0|].
      * destruct (atom_eqb v k0) eqn:E.
        -- apply atom_eqb_eq in E. subst v. apply IH.
           ++ intros k1 H1. inversion H1; subst k1.
              apply Forall_app. split; [apply Hk; reflexivity|].
              constructor; [exact Hv | constructor].
           ++ discriminate.
        -- apply IH.
           ++ intros k1 H1. inversion H1; subst k1.
              constructor; [exact Hv | constructor].
           ++ discriminate.
      * apply IH.
        -- intros k1 H1. inversion H1; subst k1.
           constructor; [exact Hv | constructor].
        -- discriminate.
    + destruct k as [k0|].
      * exists k0. apply Hk. reflexivity.
      * exists (Int 0). rewrite Hn by reflexivity. constructor.
Qed.

Lemma grouper_list_continue : forall tuples bare,
  grouper_list tuples bare
  = match continue (length tuples) (run_loop bare tuples Dummy None) with
    | Some (out, e, _) => Some (out, e)
    | None => None
    end.
Proof.
  intros tuples bare. unfold grouper_list, grouper. cbn [collect next].
  unfold continue.
  destruct (run_loop bare tuples Dummy None) as [v s'|s'|e s'];
    reflexivity.
Qed.

(** X13: a tuple that cannot be taken apart (an empty tuple, or in bare
    mode a tuple that is not a pair) makes [grouper] raise the error of
    that tuple when the iteration reaches it, and nothing after it is
    read.  The groups yielded before the error hold, in order, the
    tuples in front of the malformed one except those of the last run:
    the group that was being accumulated is not yielded.  That run is
    not empty when a tuple was read, and its tuples share their key. *)
Theorem grouper_malformed_tuple_raises :
  forall (bare : bool) (pre : list tuple) (bad : tuple)
         (rest : list tuple) (e : exn),
    forallb (splits bare) pre = true ->
    split bare bad = inl e ->
    e = (if bare then ValueError_unpack else IndexError_tuple_index) /\
    (exists groups,
        grouper_list (pre ++ bad :: rest) bare = Some (groups, Failed e) /\
        ungroup groups ++ open_run bare pre = pre) /\
    (pre <> [] -> open_run bare pre <> []) /\
    exists k, Forall (fun t => key_of bare t = Some k) (open_run bare pre).
Proof.
  intros bare pre bad rest e Hok Hbad. split; [|split; [|split]].
  - destruct bare; simpl in Hbad.
    + destruct bad as [|a [|b [|c t]]]; inversion Hbad; reflexivity.
    + destruct bad as [|a t]; inversion Hbad; reflexivity.
  - destruct (@run_loop_fails bare pre bad rest e None
                (length (pre ++ bad :: rest)) Hok Hbad)
      as (groups & Hc & Hu).
    { rewrite length_app. simpl. lia. }
    exists groups. split; [|exact Hu].
    rewrite grouper_list_continue. simpl in Hc. rewrite Hc. reflexivity.
  - intro Hne. apply open_run_from_nonempty; [exact Hok | right; exact Hne].
  - apply open_run_from_one_key; [intros k0 H; discriminate H | reflexivity].
Qed.

Lemma grouper_malformed_tuple_raises_witness :
  IndexError_tuple_index = (if false then ValueError_unpack
                            else IndexError_tuple_index) /\
  (exists groups,
      grouper_list ([[Int 1; Int 2]; [Int 2; Int 3]] ++ [] :: [[Int 4]])
                   false
      = Some (groups, Failed IndexError_tuple_index) /\
      ungroup groups ++ open_run false [[Int 1; Int 2]; [Int 2; Int 3]]
      = [[Int 1; Int 2]; [Int 2; Int 3]]) /\
  ([[Int 1; Int 2]; [Int 2; Int 3]] <> [] ->
   open_run false [[Int 1; Int 2]; [Int 2; Int 3]] <> []) /\
  exists k, Forall (fun t => key_of false t = Some k)
                   (open_run false [[Int 1; Int 2]; [Int 2; Int 3]]).
Proof.
  apply (@grouper_malformed_tuple_raises false
           [[Int 1; Int 2]; [Int 2; Int 3]] [] [[Int 4]]
           IndexError_tuple_index); reflexivity.
Defined.

(** Groups that are yielded have a key and at least one item. *)
Lemma run_loop_groups_shape : forall bare tuples cur fuel groups e s,
  match cur with Some (_, l) => l <> [] | None => True end ->
  continue fuel (run_loop bare tuples (last_id_of cur) (items_of cur))
  = Some (groups, e, s) ->
  Forall (fun g => exists k r rs, g = (Id k, r :: rs)) groups.
Proof.
  intros bare tuples.
  induction tuples as [|tup r IH]; intros cur fuel groups e s Hcur H.
  - destruct cur as [[k l]|]; simpl in H.
    + destruct fuel as [|fuel']; [discriminate|]. simpl in H.
      inversion H; subst. constructor; [|constructor].
      destruct l as [|x l']; [contradiction|]. exists k, x, l'. reflexivity.
    + inversion H; subst. constructor.
  - cbn [run_loop] in H.
    destruct (split bare tup) as [e' | [value rst]] eqn:Hsp.
    + simpl in H. inversion H; subst. constructor.
    + destruct cur as [[k l]|]; cbn [last_id_of items_of differs] in H.
      * destruct (atom_eqb value k) eqn:Hk; cbn [negb] in H.
        -- apply (IH (Some (k, l ++ [rst])) fuel groups e s); [|exact H].
           intro Hl. apply app_eq_nil in Hl. destruct Hl; discriminate.
        -- destruct fuel as [|fuel']; [discriminate|].
           rewrite continue_yield in H.
           destruct (continue fuel' (run_loop bare r (Id value) (Some [rst])))
             as [[[vs e0] s0]|] eqn:Hc; [|discriminate].
           inversion H; subst. constructor.
           ++ destruct l as [|x l']; [contradiction|].
              exists k, x, l'. reflexivity.
           ++ apply (IH (Some (value, [rst])) fuel' vs e s);
                [discriminate | exact Hc].
      * apply (IH (Some (value, [rst])) fuel groups e s);
          [discriminate | exact H].
Qed.

(** X14: whatever the input and however the iteration ends, every group
    that [grouper] yields carries a key taken from a tuple, never the
    dummy object, and at least one item. *)
Theorem grouper_groups_are_keyed_and_nonempty :
  forall (tuples : list tuple) (bare : bool)
         (groups : list (ident * list rest)) (e : ending exn),
    grouper_list tuples bare = Some (groups, e) ->
    Forall (fun g => exists k r rs, g = (Id k, r :: rs)) groups.
Proof.
  intros tuples bare groups e H.
  rewrite grouper_list_continue in H.
  destruct (continue (length tuples) (run_loop bare tuples Dummy None))
    as [[[out e0] s]|] eqn:Hc; [|discriminate].
  inversion H; subst.
  apply (@run_loop_groups_shape bare tuples None (length tuples) groups e s);
    [exact I | exact Hc].
Qed.

Lemma grouper_groups_are_keyed_and_nonempty_witness :
  Forall (fun g => exists k r rs, g = (Id k, r :: rs))
         [(Id (Int 1), [Bare (Int 2); Bare (Int 5)]);
          (Id (Int 2), [Bare (Int 5)])].
Proof.
  apply (@grouper_groups_are_keyed_and_nonempty
           [[Int 1; Int 2]; [Int 1; Int 5]; [Int 2; Int 5]] true
           [(Id (Int 1), [Bare (Int 2); Bare (Int 5)]);
            (Id (Int 2), [Bare (Int 5)])] Exhausted).
  reflexivity.
Defined.

End GrouperMore.

(** ** Dictionaries as item lists *)

Module DictFacts.
Import Dict.

Section WithKeys.
Variables K V : Type.
Variable eqb : K -> K -> bool.
Hypothesis eqb_eq : forall a b, eqb a b = true <-> a = b.

Lemma eqb_refl : forall a, eqb a a = true.
Proof. intro a. apply eqb_eq. reflexivity. Qed.

Lemma eqb_neq : forall a b, a <> b -> eqb a b = false.
Proof.
  intros a b H. destruct (eqb a b) eqn:E; [|reflexivity].
  apply eqb_eq in E. contradiction.
Qed.

Lemma get_some_in : forall (d : list (K * V)) k v,
  get eqb d k = Some v -> In k (map fst d).
Proof.
  induction d as [|[k' v'] r IH]; intros k v H; simpl in H; [discriminate|].
  destruct (eqb k k') eqn:E.
  - apply eqb_eq in E. subst. left. reflexivity.
  - right. eapply IH. exact H.
Qed.

Lemma get_not_in : forall (d : list (K * V)) k,
  ~ In k (map fst d) -> get eqb d k = None.
Proof.
  intros d k H. destruct (get eqb d k) eqn:G; [|reflexivity].
  apply get_some_in in G. contradiction.
Qed.

Lemma get_none_not_in : forall (d : list (K * V)) k,
  get eqb d k = None -> ~ In k (map fst d).
Proof.
  induction d as [|[k' v] r IH]; intros k H; simpl in *; [tauto|].
  destruct (eqb k k') eqn:E; [discriminate|].
  intros [Heq | Hin]; [|exact (IH k H Hin)].
  subst. rewrite eqb_refl in E. discriminate.
Qed.

Lemma set_fresh : forall (d : list (K * V)) k v,
  ~ In k (map fst d) -> set eqb d k v = d ++ [(k, v)].
Proof.
  induction d as [|[k' v'] r IH]; intros k v H; simpl; [reflexivity|].
  simpl in H. rewrite eqb_neq by (intro; subst; apply H; left; reflexivity).
  rewrite IH; [reflexivity|]. intro Hin. apply H. right. exact Hin.
Qed.

Lemma set_keys_known : forall (d : list (K * V)) k v,
  In k (map fst d) -> map fst (set eqb d k v) = map fst d.
Proof.
  induction d as [|[k' v'] r IH]; intros k v H; simpl; [contradiction|].
  destruct (eqb k k') eqn:E; [reflexivity|].
  simpl. rewrite IH; [reflexivity|].
  destruct H as [H | H]; [|exact H].
  simpl in H. subst. rewrite eqb_refl in E. discriminate.
Qed.

Lemma set_nodup : forall (d : list (K * V)) k v,
  NoDup (map fst d) -> NoDup (map fst (set eqb d k v)).
Proof.
  intros d k v H.
  destruct (get eqb d k) eqn:G.
  - rewrite set_keys_known; [exact H|]. eapply get_some_in. exact G.
  - apply get_none_not_in in G. rewrite set_fresh by exact G.
    rewrite map_app. simpl.
    apply NoDup_app; [exact H | repeat constructor; intros [] |].
    intros x Hx [Hk | []]. subst. exact (G Hx).
Qed.

Lemma get_set_same : forall (d : list (K * V)) k v,
  get eqb (set eqb d k v) k = Some v.
Proof.
  induction d as [|[k' v'] r IH]; intros k v; simpl.
  - rewrite eqb_refl. reflexivity.
  - destruct (eqb k k') eqn:E; simpl; rewrite E; [reflexivity | apply IH].
Qed.

Lemma get_set_other : forall (d : list (K * V)) k v k',
  k' <> k -> get eqb (set eqb d k v) k' = get eqb d k'.
Proof.
  induction d as [|[k0 v0] r IH]; intros k v k' H; simpl.
  - rewrite eqb_neq by exact H. reflexivity.
  - destruct (eqb k k0) eqn:E; simpl.
    + apply eqb_eq in E. subst k0. rewrite eqb_neq by exact H. reflexivity.
    + destruct (eqb k' k0); [reflexivity | apply IH, H].
Qed.

Lemma fold_set_nodup : forall (items acc : list (K * V)),
  NoDup (map fst (acc ++ items)) ->
  fold_left (fun a kv => set eqb a (fst kv) (snd kv)) items acc
  = acc ++ items.
Proof.
  induction items as [|[k v] r IH]; intros acc H; simpl.
  - rewrite app_nil_r. reflexivity.
  - rewrite set_fresh.
    + rewrite IH; rewrite <- app_assoc; [reflexivity | exact H].
    + rewrite map_app in H. apply NoDup_app_remove_r in H as H1.
      intro Hin. rewrite <- map_app in H.
      rewrite map_app in H. simpl in H.
      apply NoDup_remove_2 in H. apply H.
      apply in_or_app. left. exact Hin.
Qed.

Lemma of_items_nodup : forall (items : list (K * V)),
  NoDup (map fst items) -> of_items eqb items = items.
Proof.
  intros items H. unfold of_items. rewrite fold_set_nodup; [reflexivity|].
  exact H.
Qed.

Lemma filter_keys_in : forall (P : K * V -> bool) (d : list (K * V)) k,
  In k (map fst (filter P d)) -> In k (map fst d).
Proof.
  intros P d k H. apply in_map_iff in H. destruct H as ([k' v] & Hk & Hin).
  apply filter_In in Hin. destruct Hin as [Hin _].
  apply in_map_iff. exists (k', v). split; assumption.
Qed.

Lemma filter_nodup : forall (P : K * V -> bool) (d : list (K * V)),
  NoDup (map fst d) -> NoDup (map fst (filter P d)).
Proof.
  intros P d. induction d as [|[k v] r IH]; intro H; simpl; [constructor|].
  inversion H as [|? ? Hn Hr]; subst.
  destruct (P (k, v)); [|apply IH, Hr].
  simpl. constructor; [|apply IH, Hr].
  intro Hin. apply Hn. eapply filter_keys_in. exact Hin.
Qed.

Lemma get_filter : forall (P : K * V -> bool) (d : list (K * V)) k,
  NoDup (map fst d) ->
  get eqb (filter P d) k
  = match get eqb d k with
    | Some v => if P (k, v) then Some v else None
    | None => None
    end.
Proof.
  intros P d k. induction d as [|[k' v'] r IH]; intro H; simpl;
    [reflexivity|].
  inversion H as [|? ? Hn Hr]; subst.
  destruct (eqb k k') eqn:E.
  - apply eqb_eq in E. subst k'.
    destruct (P (k, v')); simpl.
    + rewrite eqb_refl. reflexivity.
    + apply get_not_in. intro Hin. apply Hn.
      eapply filter_keys_in. exact Hin.
  - destruct (P (k', v')); simpl; [rewrite E|]; apply IH, Hr.
Qed.

End WithKeys.

End DictFacts.

(** ** compact and compact_dict *)

Module CompactFacts.
Import Dict Compact DictFacts.

Lemma collect_icompact : forall it fuel,
  length it < fuel ->
  collect icompact_next fuel it = Some (filter truthy it, Exhausted, []).
Proof.
  induction it as [|x r IH]; intros fuel Hf.
  - destruct fuel; [simpl in Hf; lia | reflexivity].
  - destruct fuel as [|fuel']; [simpl in Hf; lia|].
    destruct (truthy x) eqn:Hx.
    + cbn [collect icompact_next filter]. rewrite Hx.
      rewrite IH by (simpl in Hf; lia). reflexivity.
    + specialize (IH (S fuel')).
      cbn [collect icompact_next filter] in *. rewrite Hx.
      apply IH. simpl in Hf. lia.
Qed.

Lemma filter_truthy_all : forall xs,
  forallb truthy (filter truthy xs) = true.
Proof.
  induction xs as [|x r IH]; simpl; [reflexivity|].
  destruct (truthy x) eqn:Hx; [simpl; rewrite Hx|]; exact IH.
Qed.

Lemma filter_truthy_fixed : forall xs,
  forallb truthy xs = true -> filter truthy xs = xs.
Proof.
  induction xs as [|x r IH]; simpl; [reflexivity|].
  intro H. apply andb_true_iff in H. destruct H as [Hx Hr].
  rewrite Hx, IH by exact Hr. reflexivity.
Qed.

(** X21: [compact] returns exactly the items of the input that are
    true, in their input order; every item of the result is true, and
    compacting the result again changes nothing. *)
Theorem compact_keeps_true_items :
  forall (xs : list value),
    exists out,
      compact xs = Some (out, Exhausted) /\
      out = filter truthy xs /\
      forallb truthy out = true /\
      compact out = Some (out, Exhausted).
Proof.
  intro xs. exists (filter truthy xs).
  unfold compact, icompact. rewrite !collect_icompact by lia.
  split; [reflexivity|]. split; [reflexivity|].
  split; [apply filter_truthy_all|].
  rewrite filter_truthy_fixed by apply filter_truthy_all. reflexivity.
Qed.

Lemma string_eqb_eq : forall a b : string, String.eqb a b = true <-> a = b.
Proof. intros a b. apply String.eqb_eq. Qed.

(** X22: for a dict (no key twice), [compact_dict] keeps exactly the
    entries whose value is true: a key maps to its old value when that
    value is true and is absent otherwise; the entries keep their
    order. *)
Theorem compact_dict_keeps_true_values :
  forall (data : list (string * value)) (k : string),
    NoDup (map fst data) ->
    compact_dict data = filter (fun kv => truthy (snd kv)) data /\
    get String.eqb (compact_dict data) k
    = match get String.eqb data k with
      | Some v => if truthy v then Some v else None
      | None => None
      end.
Proof.
  intros data k H.
  assert (E : compact_dict data = filter (fun kv => truthy (snd kv)) data).
  { unfold compact_dict.
    apply (@of_items_nodup string value String.eqb string_eqb_eq).
    apply filter_nodup, H. }
  split; [exact E|]. rewrite E.
  apply (@get_filter string value String.eqb string_eqb_eq
           (fun kv => truthy (snd kv)) data k H).
Qed.

Lemma compact_dict_keeps_true_values_witness :
  compact_dict [("a"%string, VNone); ("b"%string, VInt 0);
                ("c"%string, VBool false); ("d"%string, VStr "bananas")]
  = filter (fun kv => truthy (snd kv))
           [("a"%string, VNone); ("b"%string, VInt 0);
            ("c"%string, VBool false); ("d"%string, VStr "bananas")] /\
  get String.eqb
      (compact_dict [("a"%string, VNone); ("b"%string, VInt 0);
                     ("c"%string, VBool false);
                     ("d"%string, VStr "bananas")]) "d"%string
  = match get String.eqb
              [("a"%string, VNone); ("b"%string, VInt 0);
               ("c"%string, VBool false); ("d"%string, VStr "bananas")]
              "d"%string with
    | Some v => if truthy v then Some v else None
    | None => None
    end.
Proof.
  apply (@compact_dict_keeps_true_values
           [("a"%string, VNone); ("b"%string, VInt 0);
            ("c"%string, VBool false); ("d"%string, VStr "bananas")]
           "d"%string).
  repeat constructor; simpl; intuition discriminate.
Defined.

End CompactFacts.

(** ** freq: counting occurrences *)

Module FreqFacts.
Import Py Dict Freq DictFacts.

Lemma atom_eqb_iff : forall a b, atom_eqb a b = true <-> a = b.
Proof.
  intros a b. split.
  - apply GrouperFacts.atom_eqb_eq.
  - intro H. subst b. destruct a; simpl;
      [apply Z.eqb_refl | apply String.eqb_refl].
Qed.

Lemma occurrences_nonneg : forall k l, (0 <= occurrences k l)%Z.
Proof.
  intros k l. induction l as [|x r IH]; simpl; [lia|].
  destruct (atom_eqb k x); lia.
Qed.

Lemma occurrences_length : forall k l,
  (occurrences k l <= Z.of_nat (length l))%Z.
Proof.
  intros k l. induction l as [|x r IH]; simpl length; simpl occurrences;
    [lia|].
  destruct (atom_eqb k x); lia.
Qed.

(** One update of the counter. *)
Lemma bump_count : forall c e k,
  count_of (set atom_eqb c e (count_of c e + 1)%Z) k
  = (count_of c k + (if atom_eqb k e then 1 else 0))%Z.
Proof.
  intros c e k. unfold count_of at 1.
  destruct (atom_eqb k e) eqn:E.
  - apply atom_eqb_iff in E. subst e.
    rewrite (@get_set_same atom Z atom_eqb atom_eqb_iff). reflexivity.
  - rewrite (@get_set_other atom Z atom_eqb atom_eqb_iff).
    + unfold count_of. lia.
    + intro H. subst e.
      rewrite (proj2 (atom_eqb_iff k k) eq_refl) in E. discriminate.
Qed.

Lemma bump_absent : forall (c : list (atom * Z)) (e : atom) (v : Z) k,
  get atom_eqb (set atom_eqb c e v) k = None <->
  get atom_eqb c k = None /\ atom_eqb k e = false.
Proof.
  intros c e v k. destruct (atom_eqb k e) eqn:E.
  - apply atom_eqb_iff in E. subst e.
    rewrite (@get_set_same atom Z atom_eqb atom_eqb_iff). split; [discriminate|].
    intros [_ H]. discriminate.
  - rewrite (@get_set_other atom Z atom_eqb atom_eqb_iff).
    + split; [intro H; split; [exact H | reflexivity] | intros [H _]; exact H].
    + intro H. subst e.
      rewrite (proj2 (atom_eqb_iff k k) eq_refl) in E. discriminate.
Qed.

Lemma counter_fold : forall l c k,
  count_of
    (fold_left (fun c elem => set atom_eqb c elem (count_of c elem + 1)%Z)
               l c) k
  = (count_of c k + occurrences k l)%Z.
Proof.
  induction l as [|x r IH]; intros c k; simpl; [lia|].
  rewrite IH, bump_count. lia.
Qed.

Lemma counter_fold_absent : forall l (c : list (atom * Z)) k,
  get atom_eqb
      (fold_left (fun c elem => set atom_eqb c elem (count_of c elem + 1)%Z)
                 l c) k = None <->
  get atom_eqb c k = None /\ occurrences k l = 0%Z.
Proof.
  induction l as [|x r IH]; intros c k; simpl.
  - split; [intro H; split; [exact H | reflexivity] | intros [H _]; exact H].
  - rewrite IH, bump_absent.
    pose proof (occurrences_nonneg k r) as Hn.
    destruct (atom_eqb k x).
    + split; [intros [[_ H] _]; discriminate H | intros [_ H]; lia].
    + split.
      * intros [[H1 _] H2]. split; [exact H1 | lia].
      * intros [H1 H2]. split; [split; [exact H1 | reflexivity] | lia].
Qed.

Lemma counter_fold_nodup : forall l (c : list (atom * Z)),
  NoDup (map fst c) ->
  NoDup (map fst
           (fold_left
              (fun c elem => set atom_eqb c elem (count_of c elem + 1)%Z)
              l c)).
Proof.
  induction l as [|x r IH]; intros c H; simpl; [exact H|].
  apply IH, (@set_nodup atom Z atom_eqb atom_eqb_iff), H.
Qed.

Lemma Counter_get : forall l k,
  get atom_eqb (Counter l) k
  = if (0 <? occurrences k l)%Z then Some (occurrences k l) else None.
Proof.
  intros l k.
  pose proof (counter_fold l [] k) as Hc.
  pose proof (counter_fold_absent l [] k) as Ha.
  pose proof (occurrences_nonneg k l) as Hn.
  change (fold_left
            (fun c elem => set atom_eqb c elem (count_of c elem + 1)%Z) l [])
    with (Counter l) in *.
  unfold count_of in Hc. simpl in Hc, Ha.
  destruct (get atom_eqb (Counter l) k) as [n|] eqn:G.
  - subst n.
    destruct (0 <? occurrences k l)%Z eqn:E; [reflexivity|].
    apply Z.ltb_ge in E.
    assert (H0 : occurrences k l = 0%Z) by lia.
    destruct Ha as [_ Ha]. specialize (Ha (conj eq_refl H0)). congruence.
  - destruct Ha as [Ha _]. destruct (Ha eq_refl) as [_ H0].
    rewrite H0. reflexivity.
Qed.

Lemma Counter_nodup : forall l, NoDup (map fst (Counter l)).
Proof.
  intro l. apply (counter_fold_nodup l []). constructor.
Qed.

Lemma total_set : forall d k v,
  total (set atom_eqb d k v) = (total d - count_of d k + v)%Z.
Proof.
  induction d as [|[k' v'] r IH]; intros k v; unfold count_of; simpl.
  - lia.
  - destruct (atom_eqb k k') eqn:E; simpl; [lia|].
    rewrite IH. unfold count_of. lia.
Qed.

Lemma total_fold : forall l c,
  total (fold_left
           (fun c elem => set atom_eqb c elem (count_of c elem + 1)%Z) l c)
  = (total c + Z.of_nat (length l))%Z.
Proof.
  induction l as [|x r IH]; intros c; simpl length; simpl fold_left; [lia|].
  rewrite IH, total_set. lia.
Qed.

(** X15: in the table that [freq] returns, a key is present exactly when
    it occurs among the (key-mapped) items and its number of occurrences
    passes [min_freq]; its value is then that number of occurrences. *)
Theorem freq_counts_occurrences :
  forall (xs : list atom) (key : option (atom -> atom))
         (min_freq : option Z) (k : atom),
    get atom_eqb (freq xs key min_freq) k
    = (let n := occurrences k (keys_of xs key) in
       if (0 <? n)%Z && passes min_freq n then Some n else None).
Proof.
  intros xs key min_freq k. unfold freq.
  change (match key with Some k0 => map k0 xs | None => xs end)
    with (keys_of xs key).
  set (l := keys_of xs key). cbv zeta.
  destruct min_freq as [m|]; simpl passes.
  - rewrite (@of_items_nodup atom Z atom_eqb atom_eqb_iff)
      by (apply filter_nodup, Counter_nodup).
    rewrite (@get_filter atom Z atom_eqb atom_eqb_iff
               (fun kc => (m <=? snd kc)%Z) (Counter l) k (Counter_nodup l)).
    rewrite Counter_get.
    destruct (0 <? occurrences k l)%Z; reflexivity.
  - rewrite (@of_items_nodup atom Z atom_eqb atom_eqb_iff)
      by apply Counter_nodup.
    rewrite Counter_get, andb_true_r. reflexivity.
Qed.

(** X16: without [min_freq] the counts of the table add up to the
    number of items; with or without it, no key is listed twice. *)
Theorem freq_counts_every_item_once :
  forall (xs : list atom) (key : option (atom -> atom))
         (min_freq : option Z),
    total (freq xs key None) = Z.of_nat (length xs) /\
    NoDup (map fst (freq xs key min_freq)).
Proof.
  intros xs key min_freq. unfold freq.
  change (match key with Some k0 => map k0 xs | None => xs end)
    with (keys_of xs key).
  set (l := keys_of xs key). cbv zeta. split.
  - rewrite (@of_items_nodup atom Z atom_eqb atom_eqb_iff)
      by apply Counter_nodup.
    pose proof (total_fold l []) as H.
    change (fold_left
              (fun c elem => set atom_eqb c elem (count_of c elem + 1)%Z) l [])
      with (Counter l) in H.
    rewrite H. simpl total. subst l. unfold keys_of.
    destruct key; [rewrite length_map|]; lia.
  - destruct min_freq as [m|];
      rewrite (@of_items_nodup atom Z atom_eqb atom_eqb_iff);
      try apply filter_nodup; apply Counter_nodup.
Qed.

End FreqFacts.

(** ** side_effect: what [fn] sees and when *)

Module SideEffectFacts.
Import SideEffect.

(** More fuel does not change the result of a traversal. *)
Lemma collect_more_fuel :
  forall E V St (next : St -> outcome E V St) fuel s r k,
    collect next fuel s = Some r -> collect next (fuel + k) s = Some r.
Proof.
  intros E V St next fuel. induction fuel as [|f IH]; intros s r k H;
    [discriminate|].
  simpl in *. destruct (next s) as [v s'|s'|e s']; try exact H.
  destruct (collect next f s') as [[[vs e] s'']|] eqn:Hc; [|discriminate].
  rewrite (IH s' _ k Hc). exact H.
Qed.

Section WithItems.
Variable A : Type.

Lemma pulls_per_item : forall k (it : list A) log,
  k <= length it ->
  pulls (@next A) k (PerItem log it)
  = (firstn k it, None,
     PerItem (log ++ map (@Item A) (firstn k it)) (skipn k it)).
Proof.
  induction k as [|k IH]; intros it log Hk.
  - simpl. rewrite app_nil_r. reflexivity.
  - destruct it as [|x r]; [simpl in Hk; lia|].
    cbn [pulls next firstn skipn map]. rewrite IH by (simpl in Hk; lia).
    rewrite <- app_assoc. reflexivity.
Qed.

Lemma collect_per_item : forall (it : list A) log fuel,
  length it < fuel ->
  collect (@next A) fuel (PerItem log it)
  = Some (it, Exhausted, Finished (log ++ map (@Item A) it)).
Proof.
  induction it as [|x r IH]; intros log fuel Hf.
  - destruct fuel; [simpl in Hf; lia|]. simpl. rewrite app_nil_r. reflexivity.
  - destruct fuel as [|fuel']; [simpl in Hf; lia|].
    cbn [collect next map]. rewrite IH by (simpl in Hf; lia).
    rewrite <- app_assoc. reflexivity.
Qed.

(** The items of the current chunk come out before anything else
    happens. *)
Lemma collect_pending_chunk : forall (chunk : list A) log n it fuel out e g,
  collect (@next A) fuel (PerChunk log n it []) = Some (out, e, g) ->
  collect (@next A) (length chunk + fuel) (PerChunk log n it chunk)
  = Some (chunk ++ out, e, g).
Proof.
  induction chunk as [|x c IH]; intros log n it fuel out e g H.
  - exact H.
  - cbn [length Nat.add collect next app].
    rewrite (IH log n it fuel out e g H). reflexivity.
Qed.

Lemma chunks_of_app : forall (l1 l2 : list (call A)),
  chunks_of (l1 ++ l2) = chunks_of l1 ++ chunks_of l2.
Proof.
  induction l1 as [|[x|c] r IH]; intro l2; simpl;
    [reflexivity | apply IH | rewrite IH; reflexivity].
Qed.

Lemma chunks_of_chunks : forall (cs : list (list A)),
  chunks_of (map (@Chunk A) cs) = cs.
Proof.
  induction cs as [|c r IH]; simpl; [reflexivity | rewrite IH; reflexivity].
Qed.

(** With a positive chunk size the input is cut into chunks of that
    size, the last one possibly shorter, and each chunk is passed to
    [fn] once. *)
Lemma collect_per_chunk : forall m (it : list A) log n,
  length it <= m ->
  (0 < n)%Z ->
  exists cs,
    collect (@next A) (S (length it)) (PerChunk log n it [])
    = Some (it, Exhausted, Finished (log ++ map (@Chunk A) cs)) /\
    concat cs = it /\
    Forall (fun c => c <> [] /\ Z.of_nat (length c) <= n)%Z cs /\
    Forall (fun c => Z.of_nat (length c) = n) (removelast cs) /\
    (it = [] -> cs = []).
Proof.
  induction m as [|m IH]; intros it log n Hm Hn.
  - destruct it; [|simpl in Hm; lia].
    exists []. simpl. rewrite app_nil_r.
    destruct (n <? 0)%Z eqn:E; [apply Z.ltb_lt in E; lia|].
    destruct (Z.to_nat n); repeat split; constructor.
  - destruct it as [|x r].
    + exists []. simpl. rewrite app_nil_r.
      destruct (n <? 0)%Z eqn:E; [apply Z.ltb_lt in E; lia|].
      destruct (Z.to_nat n); repeat split; constructor.
    + assert (Hpos : exists k, Z.to_nat n = S k)
        by (exists (pred (Z.to_nat n)); lia).
      destruct Hpos as [k Hk].
      set (it' := skipn (Z.to_nat n) (x :: r)).
      assert (Hlen : length (firstn (Z.to_nat n) (x :: r)) + length it'
                     = length (x :: r)).
      { unfold it'. rewrite <- length_app, firstn_skipn. reflexivity. }
      assert (Hfirst : firstn (Z.to_nat n) (x :: r) = x :: firstn k r)
        by (rewrite Hk; reflexivity).
      destruct (IH it' (log ++ [Chunk (x :: firstn k r)]) n)
        as (cs & Hc & Hcat & Hall & Hfull & Hnil); [|exact Hn|].
      { rewrite Hfirst in Hlen. simpl in Hlen, Hm. lia. }
      exists ((x :: firstn k r) :: cs).
      split; [|split; [|split; [|split]]].
      * cbn [collect next].
        destruct (n <? 0)%Z eqn:E; [apply Z.ltb_lt in E; lia|].
        rewrite Hfirst. fold it'.
        pose proof (@collect_pending_chunk (firstn k r) _ _ _ _ _ _ _ Hc) as Hp.
        replace (length (x :: r))
          with (length (firstn k r) + S (length it'))
          by (rewrite Hfirst in Hlen; simpl in Hlen |- *; lia).
        rewrite Hp.
        assert (Hr : firstn k r ++ it' = r).
        { pose proof (firstn_skipn (Z.to_nat n) (x :: r)) as Hfs.
          rewrite Hfirst in Hfs. fold it' in Hfs. simpl in Hfs.
          inversion Hfs as [Hr]. rewrite Hr. exact Hr. }
        rewrite Hr, <- app_assoc. reflexivity.
      * simpl. rewrite Hcat.
        pose proof (firstn_skipn (Z.to_nat n) (x :: r)) as Hfs.
        rewrite Hfirst in Hfs. exact Hfs.
      * constructor; [|exact Hall]. split; [discriminate|].
        rewrite <- Hfirst.
        pose proof (firstn_le_length (Z.to_nat n) (x :: r)). lia.
      * destruct cs as [|c cs']; [constructor|].
        cbn [removelast]. constructor; [|exact Hfull].
        assert (Hne : it' <> []).
        { intro H. specialize (Hnil H). discriminate. }
        rewrite <- Hfirst.
        rewrite length_firstn.
        assert (length it' <> 0)
          by (destruct it'; [contradiction | simpl; lia]).
        unfold it' in H. rewrite length_skipn in H. lia.
      * discriminate.
Qed.

End WithItems.

(** X17: without a chunk size, [side_effect] passes the input through
    unchanged and calls [fn] once on every item, in order.  It is lazy:
    after [k] pulls [fn] has been called on exactly the first [k] items
    and the rest of the input has not been read. *)
Theorem side_effect_calls_fn_per_pulled_item :
  forall (A : Type) (xs : list A),
    side_effect_list xs None
    = Some (xs, Exhausted, Finished (map (@Item A) xs)) /\
    forall k,
      k <= length xs ->
      pulls (@next A) k (side_effect xs None)
      = (firstn k xs, None,
         PerItem (map (@Item A) (firstn k xs)) (skipn k xs)).
Proof.
  intros A xs. split.
  - unfold side_effect_list, side_effect.
    rewrite collect_per_item by lia. reflexivity.
  - intros k Hk. unfold side_effect.
    rewrite pulls_per_item by exact Hk. reflexivity.
Qed.

Lemma side_effect_calls_fn_per_pulled_item_witness :
  pulls (@next Z) 3 (side_effect [0; 1; 2; 3; 4; 5; 6; 7; 8; 9]%Z None)
  = (firstn 3 [0; 1; 2; 3; 4; 5; 6; 7; 8; 9]%Z, None,
     PerItem (map (@Item Z) (firstn 3 [0; 1; 2; 3; 4; 5; 6; 7; 8; 9]%Z))
             (skipn 3 [0; 1; 2; 3; 4; 5; 6; 7; 8; 9]%Z)).
Proof.
  apply (proj2 (@side_effect_calls_fn_per_pulled_item Z
                  [0; 1; 2; 3; 4; 5; 6; 7; 8; 9]%Z)).
  simpl. lia.
Defined.

(** X18: with a positive chunk size, [side_effect] passes the input
    through unchanged, and [fn] is called on consecutive chunks of the
    input and on nothing else: the chunks put together are the input,
    none is empty, every chunk but the last has exactly [chunk_size]
    items and the last has at most that many. *)
Theorem side_effect_calls_fn_per_chunk :
  forall (A : Type) (xs : list A) (n : Z),
    (0 < n)%Z ->
    exists cs,
      side_effect_list xs (Some n)
      = Some (xs, Exhausted, Finished (map (@Chunk A) cs)) /\
      concat cs = xs /\
      Forall (fun c => c <> [] /\ Z.of_nat (length c) <= n)%Z cs /\
      Forall (fun c => Z.of_nat (length c) = n) (removelast cs).
Proof.
  intros A xs n Hn.
  destruct (@collect_per_chunk A (length xs) xs [] n (Nat.le_refl _) Hn)
    as (cs & Hc & Hcat & Hall & Hfull & _).
  exists cs. unfold side_effect_list, side_effect.
  rewrite Hc. repeat split; assumption.
Qed.

Lemma side_effect_calls_fn_per_chunk_witness :
  exists cs,
    side_effect_list [0; 1; 2; 3; 4; 5; 6; 7; 8; 9]%Z (Some 3%Z)
    = Some ([0; 1; 2; 3; 4; 5; 6; 7; 8; 9]%Z, Exhausted,
            Finished (map (@Chunk Z) cs)) /\
    concat cs = [0; 1; 2; 3; 4; 5; 6; 7; 8; 9]%Z /\
    Forall (fun c => c <> [] /\ Z.of_nat (length c) <= 3)%Z cs /\
    Forall (fun c => Z.of_nat (length c) = 3%Z) (removelast cs).
Proof.
  apply (@side_effect_calls_fn_per_chunk Z
           [0; 1; 2; 3; 4; 5; 6; 7; 8; 9]%Z 3%Z).
  lia.
Defined.

(** X19: with a positive chunk size the first pull already reads a whole
    chunk from the input and calls [fn] on it before the first item is
    yielded: [fn] sees up to [chunk_size] items ahead of the consumer. *)
Theorem side_effect_chunk_reads_ahead :
  forall (A : Type) (x : A) (xs : list A) (n : Z),
    (0 < n)%Z ->
    exists g,
      next (side_effect (x :: xs) (Some n)) = Yield x g /\
      calls g = [Chunk (firstn (Z.to_nat n) (x :: xs))] /\
      unread g = skipn (Z.to_nat n) (x :: xs).
Proof.
  intros A x xs n Hn. unfold side_effect. cbn [next].
  destruct (n <? 0)%Z eqn:E; [apply Z.ltb_lt in E; lia|].
  destruct (Z.to_nat n) as [|k] eqn:Hk; [lia|].
  cbn [firstn]. eexists. split; [reflexivity|]. split; reflexivity.
Qed.

Lemma side_effect_chunk_reads_ahead_witness :
  exists g,
    next (side_effect (0 :: [1; 2; 3; 4])%Z (Some 3%Z)) = Yield 0%Z g /\
    calls g = [Chunk (firstn (Z.to_nat 3) (0 :: [1; 2; 3; 4])%Z)] /\
    unread g = skipn (Z.to_nat 3) (0 :: [1; 2; 3; 4])%Z.
Proof.
  apply (@side_effect_chunk_reads_ahead Z 0%Z [1; 2; 3; 4]%Z 3%Z). lia.
Defined.

(** X20: a chunk size that is not positive passes nothing through.
    With [chunk_size = 0] the output is empty, [fn] is never called and
    the input stays unread; with a negative [chunk_size] the first pull
    raises the [ValueError] of [take]. *)
Theorem side_effect_nonpositive_chunk_size :
  forall (A : Type) (xs : list A) (n : Z),
    (n <= 0)%Z ->
    (n = 0%Z ->
     side_effect_list xs (Some n) = Some ([], Exhausted, Finished [])) /\
    ((n < 0)%Z ->
     side_effect_list xs (Some n)
     = Some ([], Failed ValueError_islice_stop, Finished [])).
Proof.
  intros A xs n Hn. unfold side_effect_list, side_effect. split.
  - intro H. subst n. reflexivity.
  - intro H. cbn [collect next].
    apply Z.ltb_lt in H. rewrite H. reflexivity.
Qed.

Lemma side_effect_nonpositive_chunk_size_witness :
  (0%Z = 0%Z ->
   side_effect_list [1; 2; 3]%Z (Some 0%Z)
   = Some ([], Exhausted, Finished [])) /\
  ((0 < 0)%Z ->
   side_effect_list [1; 2; 3]%Z (Some 0%Z)
   = Some ([], Failed ValueError_islice_stop, Finished [])).
Proof.
  apply (@side_effect_nonpositive_chunk_size Z [1; 2; 3]%Z 0%Z). lia.
Defined.

End SideEffectFacts.
